(** * webscrapper: the scraping server (server.js) and the cached-results
    loader of its front end, embedded in Rocq.

    JavaScript strings are sequences of UTF-16 code units; they are modelled
    as lists of code units.  Exceptions are modelled by an explicit
    completion type, the network by an oracle that says how each outbound
    request settles, and the log of outbound requests is threaded through
    the code as state.

    The code of the repository is translated function by function.  What it
    calls in its platform is either modelled ([String.prototype.trim] and
    [includes], the cheerio queries on a parsed tree, [Promise.allSettled],
    [localStorage]) or taken as a parameter of the code that uses it: the
    HTML parser [cheerio.load], URL resolution [new URL(...).href] and
    [JSON.parse].  The loader's [displayResults] is a parameter as well: the
    loader is verified for whatever that procedure writes to the results
    area and whether or not it throws. *)

From Stdlib Require Import String Ascii NArith DecimalString.
From stdpp Require Import base option list numbers gmap.

Set Warnings "-register-all".

(** ** JavaScript strings *)

Module JsString.

(** A string value: its UTF-16 code units. *)
Definition jsstring := list N.

(** A string literal of the source, as code units; the literals used are
    ASCII. *)
Definition lit (s : string) : jsstring :=
  map N_of_ascii (list_ascii_of_string s).
Arguments lit s%_string.

(** ECMAScript WhiteSpace and LineTerminator code points, the characters
    that [String.prototype.trim] strips. *)
Definition is_white_space (c : N) : bool :=
  (  (c =? 0x0009) || (c =? 0x000A) || (c =? 0x000B) || (c =? 0x000C)
  || (c =? 0x000D) || (c =? 0x0020) || (c =? 0x00A0) || (c =? 0x1680)
  || ((0x2000 <=? c) && (c <=? 0x200A))
  || (c =? 0x2028) || (c =? 0x2029) || (c =? 0x202F) || (c =? 0x205F)
  || (c =? 0x3000) || (c =? 0xFEFF))%N.

(** [s.trimStart()] *)
Fixpoint trimStart (s : jsstring) : jsstring :=
  match s with
  | [] => []
  | c :: s' => if is_white_space c then trimStart s' else s
  end.

(** [s.trimEnd()] *)
Definition trimEnd (s : jsstring) : jsstring := rev (trimStart (rev s)).

(** [s.trim()] *)
Definition trim (s : jsstring) : jsstring := trimEnd (trimStart s).

(** [s.startsWith(p)] *)
Fixpoint startsWith (s p : jsstring) {struct p} : bool :=
  match p, s with
  | [], _ => true
  | _ :: _, [] => false
  | a :: p', b :: s' => (a =? b)%N && startsWith s' p'
  end.

(** [s.includes(sub)]: [sub] occurs in [s] at some index. *)
Fixpoint includes (s sub : jsstring) : bool :=
  startsWith s sub ||
  match s with
  | [] => false
  | _ :: s' => includes s' sub
  end.

(** Truthiness of a string: every string but the empty one. *)
Definition truthy (s : jsstring) : bool :=
  match s with [] => false | _ :: _ => true end.

(** A string of one or more characters, all of them white space. *)
Definition is_blank (s : jsstring) : bool :=
  truthy s && forallb is_white_space s.

(** Truthiness of a value that is a string or [undefined]/[null]. *)
Definition truthy_opt (o : option jsstring) : bool :=
  match o with Some s => truthy s | None => false end.

(** The value of a variable known to hold a string. *)
Definition str (o : option jsstring) : jsstring := default [] o.

(** [String(n)] for a non-negative integer [n]: its decimal digits. *)
Definition of_nat (n : nat) : jsstring :=
  lit (NilZero.string_of_uint (Nat.to_uint n)).

(** [a === b] on strings *)
Definition eqb (a b : jsstring) : bool := bool_decide (a = b).

End JsString.
Import JsString.

(** ** Exceptions and promises *)

(** A thrown [Error] object.  Everything the scraper can catch comes from
    [fetch], [response.text()], [cheerio.load], [new URL] or its own
    [throw new Error(...)], each of which throws an object with a [name]
    and a [message] that are strings. *)
Record JsError := mkError { name : jsstring; message : jsstring }.

(** [new Error(msg)] *)
Definition Error (msg : jsstring) : JsError :=
  {| name := lit "Error"; message := msg |}.

(** The [DOMException] with which an aborted [fetch] rejects. *)
Definition AbortError : JsError :=
  {| name := lit "AbortError"; message := lit "This operation was aborted" |}.

(** How the evaluation of an expression or a block ends. *)
Inductive Completion (A : Type) : Type :=
| Normal (a : A)
| Throw (e : JsError).
Arguments Normal {A} a.
Arguments Throw {A} e.

(** A settled promise, which is also the shape of an element of the array
    that [Promise.allSettled] resolves with. *)
Inductive Settled (A : Type) : Type :=
| fulfilled (value : A)
| rejected (reason : JsError).
Arguments fulfilled {A} value.
Arguments rejected {A} reason.

(** ** The parsed document and the cheerio queries the scraper makes *)

Module Cheerio.

(** A node of the tree that [cheerio.load] builds. *)
Inductive Node : Type :=
| TextNode (data : jsstring)
| CommentNode (data : jsstring)
| Element (tag : jsstring) (attribs : list (jsstring * jsstring))
          (children : list Node).

(** The children of the document root. *)
Definition Document := list Node.

(** [getAttributeValue(elem, key)]: [undefined] is [None]. *)
Fixpoint lookup_attrib (key : jsstring) (attribs : list (jsstring * jsstring))
  : option jsstring :=
  match attribs with
  | [] => None
  | (k, v) :: rest => if eqb k key then Some v else lookup_attrib key rest
  end.

Definition attrib (key : jsstring) (n : Node) : option jsstring :=
  match n with
  | Element _ attribs _ => lookup_attrib key attribs
  | _ => None
  end.

(** The whitespace-separated tokens of an attribute value; [cur] holds the
    token being read, reversed. *)
Fixpoint tokens_from (cur s : jsstring) : list jsstring :=
  match s with
  | [] => match cur with [] => [] | _ => [rev cur] end
  | c :: s' =>
      if is_white_space c
      then match cur with [] => tokens_from [] s' | _ => rev cur :: tokens_from [] s' end
      else tokens_from (c :: cur) s'
  end.

Definition tokens (s : jsstring) : list jsstring := tokens_from [] s.

(** The type selector [tag]. *)
Definition is_tag (t : jsstring) (n : Node) : bool :=
  match n with
  | Element t' _ _ => eqb t' t
  | _ => false
  end.

(** The class selector [.cls]. *)
Definition has_class (cls : jsstring) (n : Node) : bool :=
  match attrib (lit "class") n with
  | Some v => existsb (eqb cls) (tokens v)
  | None => false
  end.

(** The descendants of [n] that match [p], in document order. *)
Fixpoint descendants (p : Node -> bool) (n : Node) : list Node :=
  match n with
  | Element _ _ cs =>
      flat_map (fun c => (if p c then [c] else []) ++ descendants p c) cs
  | _ => []
  end.

(** The descendants of [n] that match [pb] and lie below a descendant of
    [n] that matches [pa], or anywhere below [n] when [inside] holds, in
    document order.  [inside] records that an element that matches [pa]
    was passed. *)
Fixpoint find_below (pa pb : Node -> bool) (inside : bool) (n : Node)
  : list Node :=
  match n with
  | Element _ _ cs =>
      flat_map (fun c => (if inside && pb c then [c] else [])
                         ++ find_below pa pb (inside || pa c) c) cs
  | _ => []
  end.

(** [$(n).find('A B')] for a descendant combinator: the descendants of [n]
    that match [B] and have an ancestor that matches [A] and is [n] itself
    or a descendant of [n], in document order.  The selector is matched as
    [:scope A B] with the scope [n] allowed to be the element that matches
    [A]. *)
Definition find (pa pb : Node -> bool) (n : Node) : list Node :=
  find_below pa pb (pa n) n.

(** [$(sel)] on the whole document. *)
Definition select (p : Node -> bool) (doc : Document) : list Node :=
  flat_map (fun c => (if p c then [c] else []) ++ descendants p c) doc.

(** The text of a node: the data of the text nodes below it. *)
Fixpoint node_text (n : Node) : jsstring :=
  match n with
  | TextNode d => d
  | CommentNode _ => []
  | Element _ _ cs => flat_map node_text cs
  end.

(** [.text()] of a selection. *)
Definition text (sel : list Node) : jsstring := flat_map node_text sel.

(** [.attr(key)] of a selection: the attribute of its first element. *)
Definition attr (key : jsstring) (sel : list Node) : option jsstring :=
  match sel with
  | [] => None
  | n :: _ => attrib key n
  end.

(** [.first()] *)
Definition first (sel : list Node) : list Node := take 1 sel.

End Cheerio.

(** ** The network *)

Module Fetch.

(** What the scraper reads of a [Response]; [text] is how the promise of
    [response.text()] settles. *)
Record Response := mkResponse {
  status : nat;
  statusText : jsstring;
  text : Completion jsstring
}.

(** [response.ok]: the status is in the range 200-299. *)
Definition ok (r : Response) : bool :=
  (200 <=? status r) && (status r <=? 299).

(** The delay of the abort timer, in milliseconds. *)
Definition timeout_ms : N := 15000.

(** What the network does with one request.  [latency] is the time in
    milliseconds after which the promise of [fetch] would settle if it were
    left alone ([None]: never), measured against the abort timer started
    just before the call: a request that has not settled when the timer's
    callback runs, after [timeout_ms], is aborted.  [result] is how it would
    settle: rejected with a network error, or resolved with a response once
    the headers have arrived; the timer is cleared at that point, so reading
    the body is not bounded by it. *)
Record Exchange := mkExchange {
  latency : option N;
  result : Completion Response
}.

(** The abort timer fires while the request is in flight. *)
Definition timed_out (x : Exchange) : bool :=
  match latency x with
  | Some t => negb (t <? timeout_ms)%N
  | None => true
  end.

(** [await fetch(url, { signal: controller.signal })] with
    [setTimeout(() => controller.abort(), 15000)] pending. *)
Definition settle (x : Exchange) : Completion Response :=
  if timed_out x then Throw AbortError else result x.

End Fetch.

(** ** Outcomes *)

(** An extracted record: an object with string values, its keys in
    insertion order. *)
Definition Record_ := list (jsstring * jsstring).

(** The object that [scrapeUrl] returns: [{url, status: 'success', records}]
    or [{url, status: 'failed', error}]. *)
Inductive Outcome : Type :=
| Success (url : jsstring) (records : list Record_)
| Failure (url : jsstring) (error : jsstring).

Definition outcome_url (o : Outcome) : jsstring :=
  match o with Success u _ => u | Failure u _ => u end.

Definition outcome_status (o : Outcome) : jsstring :=
  match o with Success _ _ => lit "success" | Failure _ _ => lit "failed" end.

(** ** A state and exception monad

    Code that changes a state [S] and may throw.  What a block did to the
    state before it threw stays done. *)

Definition ST (S A : Type) : Type := S -> Completion A * S.

Definition ret {S A} (a : A) : ST S A := fun s => (Normal a, s).

Definition throw {S A} (e : JsError) : ST S A := fun s => (Throw e, s).

Definition bind {S A B} (m : ST S A) (k : A -> ST S B) : ST S B :=
  fun s =>
    match m s with
    | (Normal a, s') => k a s'
    | (Throw e, s') => (Throw e, s')
    end.

(** A step that does not touch the state. *)
Definition lift {S A} (c : Completion A) : ST S A := fun s => (c, s).

(** [try { body } catch (error) { handler }] *)
Definition try_catch {S A} (body : ST S A) (handler : JsError -> ST S A)
  : ST S A :=
  fun s =>
    match body s with
    | (Normal a, s') => (Normal a, s')
    | (Throw e, s') => handler e s'
    end.

#[export] Instance ST_ret {S} : MRet (ST S) := @ret S.
#[export] Instance ST_bind {S} : MBind (ST S) := fun A B k m => bind m k.

(** The state of the server: the log of the URLs requested so far, oldest
    first. *)
Definition Log := list jsstring.
Abbreviation M := (ST Log).

#[export] Instance Completion_ret : MRet Completion := @Normal.
#[export] Instance Completion_bind : MBind Completion := fun A B k c =>
  match c with
  | Normal a => k a
  | Throw e => Throw e
  end.

(** An [async] function: its promise is fulfilled with the value the body
    returns and rejected with what the body throws. *)
Definition async {A} (body : M A) : Log -> Settled A * Log :=
  fun log =>
    match body log with
    | (Normal a, log') => (fulfilled a, log')
    | (Throw e, log') => (rejected e, log')
    end.

(** [Promise.allSettled(ps)], with the order in which the promises settle:
    the reaction of the promise at index [i] stores its result in slot [i]
    of the values array, and the combined promise resolves with that array
    once every slot is filled.  [None]: some promise has not settled. *)
Definition settle_slot {A} (ps : list (Settled A))
    (values : list (option (Settled A))) (i : nat) : list (option (Settled A)) :=
  match ps !! i with
  | Some r => <[i := Some r]> values
  | None => values
  end.

Definition allSettled {A} (ps : list (Settled A)) (order : list nat)
  : option (list (Settled A)) :=
  mapM id (foldl (settle_slot ps) (replicate (length ps) None) order).

(** [l.map(f)] for an [f] that also extends the log. *)
Fixpoint map_calls {A B} (f : A -> Log -> B * Log) (l : list A) (log : Log)
  : list B * Log :=
  match l with
  | [] => ([], log)
  | a :: l' =>
      let '(b, log1) := f a log in
      let '(bs, log2) := map_calls f l' log1 in
      (b :: bs, log2)
  end.

(** ** server.js *)

Module Server.
Import Cheerio.

(** The value of [req.body.urls], [req.body] being the object that
    [express.json()] made of the request body.  The elements of an array
    are strings, as the client sends them. *)
Inductive UrlsValue : Type :=
| VUndefined
| VNull
| VBool (b : bool)
| VNumber (z : Z)
| VString (s : jsstring)
| VObject (fields : list (jsstring * jsstring))
| VArray (elems : list jsstring).

Definition truthy_value (v : UrlsValue) : bool :=
  match v with
  | VUndefined | VNull => false
  | VBool b => b
  | VNumber z => negb (z =? 0)%Z
  | VString s => truthy s
  | VObject _ | VArray _ => true
  end.

(** [Array.isArray(v)] *)
Definition isArray (v : UrlsValue) : bool :=
  match v with VArray _ => true | _ => false end.

Definition elements (v : UrlsValue) : list jsstring :=
  match v with VArray l => l | _ => [] end.

(** [req.body] when the handler starts: [undefined] when [express.json()]
    parsed no body for the request, else the parsed value, of which the
    handler reads the property [urls].  What a request without a JSON body
    gives depends on the version of express: version 4 leaves an empty
    object, version 5 leaves [undefined]. *)
Inductive RequestBody : Type :=
| NoBody
| JsonBody (urls : UrlsValue).

(** What the handler sends: [res.status(400).json({ error })] or
    [res.json(responseData)]. *)
Inductive Payload : Type :=
| ErrorJson (error : jsstring)
| OutcomesJson (responseData : list Outcome).

Record HttpResponse := mkHttpResponse { code : nat; payload : Payload }.

Section Scraper.

(** The fate of the k-th outbound request of the process, counted from 0. *)
Variable net : nat -> Fetch.Exchange.
(** [cheerio.load(html)] *)
Variable load : jsstring -> Completion Document.
(** [new URL(relative, base).href] *)
Variable URL_href : jsstring -> jsstring -> Completion jsstring.

(** [await fetch(url, { signal: controller.signal })] under the 15 second
    abort timer: one outbound request. *)
Definition fetch (url : jsstring) : M Fetch.Response :=
  fun log => (Fetch.settle (net (length log)), log ++ [url]).

(** The selector ['article.product_pod']. *)
Definition is_product_pod (n : Node) : bool :=
  is_tag (lit "article") n && has_class (lit "product_pod") n.

(** [bookArticle.find('h3 a')] *)
Definition find_h3_a (bookArticle : Node) : list Node :=
  find (is_tag (lit "h3")) (is_tag (lit "a")) bookArticle.

(** [bookArticle.find('.product_price .price_color')] *)
Definition find_price (bookArticle : Node) : list Node :=
  find (has_class (lit "product_price")) (has_class (lit "price_color"))
       bookArticle.

(** [const title = bookArticle.find('h3 a').attr('title')] *)
Definition pod_title (bookArticle : Node) : option jsstring :=
  attr (lit "title") (find_h3_a bookArticle).

(** [const relativeLink = bookArticle.find('h3 a').attr('href')] *)
Definition pod_relativeLink (bookArticle : Node) : option jsstring :=
  attr (lit "href") (find_h3_a bookArticle).

(** [const price = bookArticle.find('.product_price .price_color').text()] *)
Definition pod_price (bookArticle : Node) : jsstring :=
  text (find_price bookArticle).

(** The required-field check [title && price && absoluteLink]. *)
Definition required_fields (title : option jsstring) (price : jsstring)
    (absoluteLink : option jsstring) : bool :=
  truthy_opt title && truthy price && truthy_opt absoluteLink.

(** The object pushed for a container. *)
Definition book_record (title price link : jsstring) : Record_ :=
  [(lit "title", title); (lit "price", price); (lit "link", link)].

(** The callback of [$('article.product_pod').each]: the records array
    after the callback has run on [element], or what it throws. *)
Definition product_pod (url : jsstring) (records : list Record_) (element : Node)
  : Completion (list Record_) :=
  let bookArticle := element in
  let title := pod_title bookArticle in
  let relativeLink := pod_relativeLink bookArticle in
  let price := pod_price bookArticle in
  absoluteLink ←
    (if truthy_opt relativeLink
     then href ← URL_href (str relativeLink) url; mret (Some href)
     else mret None);
  if required_fields title price absoluteLink
  then mret (records ++ [book_record (trim (str title)) (trim price)
                                     (str absoluteLink)])
  else mret records.

(** [sel.each(callback)] *)
Fixpoint each (callback : list Record_ -> Node -> Completion (list Record_))
    (sel : list Node) (records : list Record_) : Completion (list Record_) :=
  match sel with
  | [] => mret records
  | element :: rest => records' ← callback records element; each callback rest records'
  end.

(** The branch for [url.includes('books.toscrape.com')]. *)
Definition scrape_books (url : jsstring) (doc : Document)
  : Completion (list Record_) :=
  each (product_pod url) (select is_product_pod doc) [].

(** [const genericTitle = $('h1').first().text().trim()] *)
Definition genericTitle (doc : Document) : jsstring :=
  trim (text (first (select (is_tag (lit "h1")) doc))).

(** The object pushed by the generic scrape. *)
Definition generic_record (title : jsstring) : Record_ :=
  [(lit "title", title); (lit "source", lit "Generic H1 scrape")].

(** The [else] branch: the generic scrape of the first [h1]. *)
Definition scrape_generic (doc : Document) : list Record_ :=
  if truthy (genericTitle doc)
  then [generic_record (genericTitle doc)]
  else [].

(** The site-specific block of the [try]: the [if]/[else] on
    [url.includes('books.toscrape.com')], which fills [records]. *)
Definition extract_records (url : jsstring) (doc : Document)
  : Completion (list Record_) :=
  if includes url (lit "books.toscrape.com")
  then scrape_books url doc
  else mret (scrape_generic doc).

(** The message [`Failed to fetch ${url}: ${response.status} ${response.statusText}`]. *)
Definition failed_to_fetch (url : jsstring) (response : Fetch.Response) : jsstring :=
  lit "Failed to fetch " ++ url ++ lit ": " ++ of_nat (Fetch.status response)
  ++ lit " " ++ Fetch.statusText response.

(** The [try] block of [scrapeUrl]. *)
Definition scrapeUrl_try (url : jsstring) : M Outcome :=
  response ← fetch url;
  (* clearTimeout(timeoutId) *)
  _ ← (if negb (Fetch.ok response)
       then throw (Error (failed_to_fetch url response))
       else mret tt);
  html ← lift (Fetch.text response);
  doc ← lift (load html);
  records ← lift (extract_records url doc);
  mret (Success url records).

(** [error.name === 'AbortError' ? 'Request timed out' : error.message] *)
Definition failure_message (error : JsError) : jsstring :=
  if eqb (name error) (lit "AbortError")
  then lit "Request timed out"
  else message error.

(** The [catch] block of [scrapeUrl]. *)
Definition scrapeUrl_catch (url : jsstring) (error : JsError) : M Outcome :=
  mret (Failure url (failure_message error)).

(** [async function scrapeUrl(url)] *)
Definition scrapeUrl (url : jsstring) : Log -> Settled Outcome * Log :=
  async (try_catch (scrapeUrl_try url) (scrapeUrl_catch url)).

(** The callback of [results.map] in the handler. *)
Definition to_response (result : Settled Outcome) : Outcome :=
  match result with
  | fulfilled value => value
  | rejected reason =>
      Failure (lit "Unknown URL (unexpected error)")
              (if truthy (message reason) then message reason
               else lit "An unexpected error occurred during scraping.")
  end.

(** The handler of [POST /scrape] from its guard on, [urls] being the
    value that it has read from [req.body].  [order] is the order in which
    the scrape promises settle; the result is [None] when [order] leaves a
    promise unsettled, so that the handler never resumes. *)
Definition post_scrape (order : list nat) (urls : UrlsValue) (log : Log)
  : option HttpResponse * Log :=
  if negb (truthy_value urls) || negb (isArray urls)
     || (length (elements urls) =? 0)
  then (Some {| code := 400;
                payload := ErrorJson
                  (lit "Please provide an array of URLs in the request body.") |},
        log)
  else
    let '(scrapePromises, log') := map_calls scrapeUrl (elements urls) log in
    (results ← allSettled scrapePromises order;
     Some {| code := 200; payload := OutcomesJson (map to_response results) |},
     log').

(** The exception of [req.body.urls] when [req.body] is [undefined]. *)
Definition urls_of_undefined : JsError :=
  {| name := lit "TypeError";
     message := lit "Cannot read properties of undefined (reading 'urls')" |}.

(** The handler of [POST /scrape] from its first line:
    [const urls = req.body.urls], which throws when there is no body, and
    then the guard and the batch.  A handler that throws has sent
    nothing. *)
Definition scrape_route (order : list nat) (body : RequestBody) (log : Log)
  : Completion (option HttpResponse) * Log :=
  match body with
  | NoBody => (Throw urls_of_undefined, log)
  | JsonBody urls =>
      let '(sent, log') := post_scrape order urls log in
      (Normal sent, log')
  end.

(** The ways in which the [try] block of [scrapeUrl] fails when its
    request meets the exchange [x], each with the error that reaches the
    [catch] block. *)
Inductive failure_path (url : jsstring) (x : Fetch.Exchange) : JsError -> Prop :=
| path_timeout :
    Fetch.timed_out x = true ->
    failure_path url x AbortError
| path_network e :
    Fetch.timed_out x = false -> Fetch.result x = Throw e ->
    failure_path url x e
| path_status r :
    Fetch.settle x = Normal r -> Fetch.ok r = false ->
    failure_path url x (Error (failed_to_fetch url r))
| path_body r e :
    Fetch.settle x = Normal r -> Fetch.ok r = true -> Fetch.text r = Throw e ->
    failure_path url x e
| path_parse r html e :
    Fetch.settle x = Normal r -> Fetch.ok r = true ->
    Fetch.text r = Normal html -> load html = Throw e ->
    failure_path url x e
| path_extraction r html doc e :
    Fetch.settle x = Normal r -> Fetch.ok r = true ->
    Fetch.text r = Normal html -> load html = Normal doc ->
    extract_records url doc = Throw e ->
    failure_path url x e.

(** A container lacks a required field: it has no title attribute or an
    empty one, no price text, or no [href] or an empty one. *)
Definition missing_field (element : Node) : Prop :=
  truthy_opt (pod_title element) = false \/
  truthy (pod_price element) = false \/
  truthy_opt (pod_relativeLink element) = false.

(** A container is well formed, with [link] the absolute form of its
    [href]: its title and its price have something left after trimming, and
    its [href] resolves against [url]. *)
Definition well_formed (url : jsstring) (element : Node) (link : jsstring) : Prop :=
  (exists title, pod_title element = Some title /\ trim title <> []) /\
  trim (pod_price element) <> [] /\
  (exists href, pod_relativeLink element = Some href /\ href <> [] /\
                URL_href href url = Normal link /\ link <> []).

(** What a container contributes to the records: nothing when it lacks a
    required field, and one record with its trimmed title, its trimmed
    price and its absolute link when it is well formed. *)
Definition yields (url : jsstring) (element : Node) (recs : list Record_) : Prop :=
  (missing_field element -> recs = []) /\
  (forall link, well_formed url element link ->
     recs = [book_record (trim (str (pod_title element)))
                         (trim (pod_price element)) link]).

(** Every [href] among the containers [pods] resolves against [url], to a
    string that is not empty. *)
Definition links_resolve (url : jsstring) (pods : list Node) : Prop :=
  forall element href,
    element ∈ pods -> pod_relativeLink element = Some href -> href <> [] ->
    exists link, URL_href href url = Normal link /\ link <> [].

(** The request of a scrape was answered with a page that was read and
    parsed into [doc]. *)
Definition fetched (x : Fetch.Exchange) (doc : Document) : Prop :=
  exists r html,
    Fetch.settle x = Normal r /\ Fetch.ok r = true /\
    Fetch.text r = Normal html /\ load html = Normal doc.

End Scraper.
End Server.

(** ** The front end: loading the cached results *)

Module Frontend.

(** The double quote character. *)
Definition dq : jsstring := [34%N].

(** [const storageKey = 'scrapedResults'] *)
Definition storageKey : jsstring := lit "scrapedResults".

(** What the loader reads and writes of the page: the [innerHTML] of the
    results area and the entries of [localStorage]. *)
Record Page := mkPage {
  resultsArea : jsstring;
  localStorage : gmap jsstring jsstring
}.

(** The markup shown when nothing is stored. *)
Definition initial_message : jsstring :=
  lit "<p>Enter URLs above and click " ++ dq ++ lit "Scrape Websites" ++ dq
  ++ lit " to see results. Previously scraped data will be saved here.</p>".

(** The markup shown when the stored results cannot be used. *)
Definition corrupted_message : jsstring :=
  lit "<p class=" ++ dq ++ lit "error-message" ++ dq
  ++ lit ">Could not load previously saved results. They might be corrupted.</p>".

Section Loader.

(** The values that [JSON.parse] produces. *)
Variable Value : Type.
(** [JSON.parse(text)] *)
Variable JSON_parse : jsstring -> Completion Value.
(** [displayResults(results)]: it rewrites the results area, and may throw
    on a value that is not an array of results. *)
Variable displayResults : Value -> ST jsstring unit.

(** [localStorage.getItem(key)]: [null] is [None]. *)
Definition getItem (key : jsstring) : ST Page (option jsstring) :=
  fun page => (Normal (localStorage page !! key), page).

(** [localStorage.removeItem(key)] *)
Definition removeItem (key : jsstring) : ST Page unit :=
  fun page =>
    (Normal tt, {| resultsArea := resultsArea page;
                   localStorage := delete key (localStorage page) |}).

(** [resultsArea.innerHTML = html] *)
Definition set_innerHTML (html : jsstring) : ST Page unit :=
  fun page =>
    (Normal tt, {| resultsArea := html; localStorage := localStorage page |}).

(** A call of [displayResults] from code whose state is the page. *)
Definition call_displayResults (results : Value) : ST Page unit :=
  fun page =>
    let '(c, html) := displayResults results (resultsArea page) in
    (c, {| resultsArea := html; localStorage := localStorage page |}).

(** [function loadAndDisplayStoredResults()] *)
Definition loadAndDisplayStoredResults : ST Page unit :=
  storedResults ← getItem storageKey;
  if truthy_opt storedResults
  then
    try_catch
      (results ← lift (JSON_parse (str storedResults));
       call_displayResults results)
      (fun error =>
         _ ← set_innerHTML corrupted_message;
         removeItem storageKey)
  else
    set_innerHTML initial_message.

End Loader.
End Frontend.

(** ** Sample pages and environments for the closed examples *)

Module Sample.
Import Cheerio.

(** [<article class="product_pod">] with an [h3 a] carrying the given
    attributes and a [.product_price .price_color] holding [price]. *)
Definition pod (a_attribs : list (jsstring * jsstring)) (price : jsstring) : Node :=
  Element (lit "article") [(lit "class", lit "product_pod")]
    [ Element (lit "h3") [] [Element (lit "a") a_attribs [TextNode (lit "A Light in the ...")]];
      Element (lit "div") [(lit "class", lit "product_price")]
        [Element (lit "p") [(lit "class", lit "price_color")] [TextNode price]] ].

(** The same container without any price element. *)
Definition pod_without_price (a_attribs : list (jsstring * jsstring)) : Node :=
  Element (lit "article") [(lit "class", lit "product_pod")]
    [ Element (lit "h3") [] [Element (lit "a") a_attribs []] ].

Definition page (body : list Node) : Document :=
  [Element (lit "html") [] [Element (lit "head") [] []; Element (lit "body") [] body]].

Definition attic : Node :=
  pod [(lit "href", lit "catalogue/a-light-in-the-attic_1000/index.html");
       (lit "title", lit "A Light in the Attic")] (lit "51.77").

Definition velvet : Node :=
  pod [(lit "href", lit "catalogue/tipping-the-velvet_999/index.html");
       (lit "title", lit "Tipping the Velvet")] (lit " 53.74 ").

Definition soumission : Node :=
  pod [(lit "href", lit "catalogue/soumission_998/index.html");
       (lit "title", lit "Soumission")] (lit "50.10").

(** A container whose title is a single space. *)
Definition blank_title : Node :=
  pod [(lit "href", lit "catalogue/untitled_1/index.html"); (lit "title", lit " ")]
      (lit "12.00").

(** A container whose title is a single space and that has no price. *)
Definition blank_title_no_price : Node :=
  pod_without_price
    [(lit "href", lit "catalogue/untitled_2/index.html"); (lit "title", lit " ")].

(** A container without a title whose link is not a URL. *)
Definition untitled_bad_link : Node :=
  pod [(lit "href", lit "http://[")] (lit "9.99").

Definition books_url : jsstring := lit "http://books.toscrape.com/".

Definition example_page : Document :=
  page [Element (lit "div") [] [Element (lit "h1") [] [TextNode (lit "Example Domain")];
                                 Element (lit "p") [] [TextNode (lit "This domain is for use in examples.")]]].

(** A container that itself has the class [product_price]. *)
Definition priced_article : Node :=
  Element (lit "article")
    [(lit "class", lit "product_pod product_price")]
    [ Element (lit "h3") []
        [Element (lit "a") [(lit "href", lit "catalogue/seven_7/index.html");
                            (lit "title", lit "Seven")] []];
      Element (lit "p") [(lit "class", lit "price_color")] [TextNode (lit "7")] ].

(** A page with two headings, the first one padded with white space. *)
Definition two_headings : Document :=
  page [ Element (lit "h1") []
           [TextNode ([10%N] ++ lit "  Example "); Element (lit "b") [] [TextNode (lit "Domain")];
            TextNode (lit " " ++ [9%N; 10%N])];
         Element (lit "h1") [] [TextNode (lit "Second heading")] ].

Definition three_books : Document := page [attic; velvet; soumission].

Definition bad_link_page : Document := page [attic; untitled_bad_link].

(** A network on which every request is answered after 120 ms with the
    given status and body. *)
Definition net_status (status : nat) (statusText body : jsstring) : nat -> Fetch.Exchange :=
  fun _ => {| Fetch.latency := Some 120%N;
              Fetch.result := Normal {| Fetch.status := status;
                                        Fetch.statusText := statusText;
                                        Fetch.text := Normal body |} |}.

(** A network that answers the first request and never the later ones. *)
Definition net_first_only (status : nat) (statusText body : jsstring)
  : nat -> Fetch.Exchange :=
  fun k =>
    match k with
    | 0 => {| Fetch.latency := Some 120%N;
              Fetch.result := Normal {| Fetch.status := status;
                                        Fetch.statusText := statusText;
                                        Fetch.text := Normal body |} |}
    | _ => {| Fetch.latency := None;
              Fetch.result := Throw {| name := lit "TypeError";
                                       message := lit "fetch failed" |} |}
    end.

(** A network that never answers. *)
Definition net_silent : nat -> Fetch.Exchange :=
  fun _ => {| Fetch.latency := None;
              Fetch.result := Throw {| name := lit "TypeError"; message := lit "fetch failed" |} |}.

(** A parser that yields [doc] whatever the markup. *)
Definition load_as (doc : Document) : jsstring -> Completion Document :=
  fun _ => Normal doc.

(** URL resolution as it acts on the links of the sample pages, all of
    them resolved against a base that ends in ['/']: [new URL] rejects
    ['http://['] (an unclosed IPv6 literal) with [TypeError: Invalid URL],
    and a relative path without dot segments is appended to the base. *)
Definition URL_href (relative base : jsstring) : Completion jsstring :=
  if eqb relative (lit "http://[")
  then Throw {| name := lit "TypeError"; message := lit "Invalid URL" |}
  else Normal (base ++ relative).

(** [JSON.parse] as it acts on the cached texts of the examples, the
    empty text and ['{oops']: it rejects them with a [SyntaxError]. *)
Definition JSON_reject (text : jsstring) : Completion unit :=
  Throw {| name := lit "SyntaxError"; message := lit "Unexpected end of JSON input" |}.

Definition display_nothing (results : unit) : ST jsstring unit :=
  fun html => (Normal tt, html).

(** A page whose cache holds the empty string, and one whose cache holds
    text that is not JSON. *)
Definition empty_cache : Frontend.Page :=
  {| Frontend.resultsArea := [];
     Frontend.localStorage := {[ Frontend.storageKey := [] ]} |}.

Definition broken_cache : Frontend.Page :=
  {| Frontend.resultsArea := [];
     Frontend.localStorage := {[ Frontend.storageKey := lit "{oops" ]} |}.

End Sample.

(** ** What a record says about the container it came from *)

Module Extraction.
Import Cheerio Server.

Section Spec.
Variable URL_href : jsstring -> jsstring -> Completion jsstring.

(** The record [r] is the one pushed for the container [element]: the
    container has a title attribute, a price text and an [href], none of
    them empty, the [href] resolves against [url], and [r] holds the
    trimmed title, the trimmed price and the resolved link. *)
Definition from_container (url : jsstring) (element : Node) (r : Record_) : Prop :=
  exists title href link,
    pod_title element = Some title /\ title <> [] /\
    pod_price element <> [] /\
    pod_relativeLink element = Some href /\ href <> [] /\
    URL_href href url = Normal link /\ link <> [] /\
    r = book_record (trim title) (trim (pod_price element)) link.

End Spec.

(** The value of the field [key] of a record: the first entry with that
    key. *)
Fixpoint field (key : jsstring) (r : Record_) : option jsstring :=
  match r with
  | [] => None
  | (k, v) :: rest => if eqb k key then Some v else field key rest
  end.

End Extraction.

(** ** The front end: the scrape button *)

Module Client.
Import Frontend.

(** [value.split('\n')]: the lines of a text; the empty text has one line. *)
Fixpoint split_lines (s : jsstring) : list jsstring :=
  match s with
  | [] => [[]]
  | c :: s' =>
      if (c =? 10)%N then [] :: split_lines s'
      else match split_lines s' with
           | line :: lines => (c :: line) :: lines
           | [] => [[c]]
           end
  end.

(** [lines.join('\n')] *)
Fixpoint join_lines (lines : list jsstring) : jsstring :=
  match lines with
  | [] => []
  | [line] => line
  | line :: rest => line ++ 10%N :: join_lines rest
  end.

(** The test of the [filter]:
    [url.length > 0 && (url.startsWith('http://') || url.startsWith('https://'))]. *)
Definition valid_url (url : jsstring) : bool :=
  (0 <? length url)
  && (startsWith url (lit "http://") || startsWith url (lit "https://")).

(** The URLs read from the text area:
    [value.split('\n').map(url => url.trim()).filter(...)]. *)
Definition read_urls (value : jsstring) : list jsstring :=
  List.filter valid_url (map trim (split_lines value)).

(** What the click handler reads and writes: the page of the loader, the
    text of the URL box, whether the loading indicator has the class
    [hidden], whether the button is disabled, and the URL lists posted to
    [/scrape] so far, oldest first. *)
Record Ui := mkUi {
  page : Page;
  urls_value : jsstring;
  loading_hidden : bool;
  button_disabled : bool;
  posted : list (list jsstring)
}.

(** What the handler reads of the response to its [POST]; [json] is how
    the promise of [response.json()] settles. *)
Record Reply (Value : Type) := mkReply {
  status : nat;
  statusText : jsstring;
  json : Completion Value
}.
Arguments status {Value} _.
Arguments statusText {Value} _.
Arguments json {Value} _.

(** [response.ok] *)
Definition ok {Value} (r : Reply Value) : bool :=
  (200 <=? status r) && (status r <=? 299).

(** The markup shown when the box holds no valid URL. *)
Definition validation_message : jsstring :=
  lit "<p class=" ++ dq ++ lit "error-message" ++ dq
  ++ lit ">Please enter at least one valid URL (starting with http:// or https://).</p>".

(** The markup appended when the results cannot be stored. *)
Definition storage_note : jsstring :=
  lit "<p class=" ++ dq ++ lit "error-message" ++ dq
  ++ lit ">Note: Could not save results for next session (localStorage error).</p>".

(** [`<p class="error-message">An error occurred during scraping: ${error.message}</p>`] *)
Definition scraping_error (msg : jsstring) : jsstring :=
  lit "<p class=" ++ dq ++ lit "error-message" ++ dq
  ++ lit ">An error occurred during scraping: " ++ msg ++ lit "</p>".

(** [`Server error: ${response.status} ${response.statusText} - ${errorData.error || ''}`] *)
Definition server_error {Value} (r : Reply Value) (error_text : jsstring) : jsstring :=
  lit "Server error: " ++ of_nat (status r) ++ lit " " ++ statusText r
  ++ lit " - " ++ error_text.

(** The exception of a [setItem] that exceeds the quota. *)
Definition QuotaExceededError : JsError :=
  {| name := lit "QuotaExceededError";
     message := lit "The quota has been exceeded." |}.

(** [try { body } finally { finalizer }]: the finalizer runs whatever the
    body did, and the completion of the body stands unless the finalizer
    throws. *)
Definition try_finally {S A} (body : ST S A) (finalizer : ST S unit) : ST S A :=
  fun s =>
    let '(c, s') := body s in
    match finalizer s' with
    | (Normal _, s'') => (c, s'')
    | (Throw e, s'') => (Throw e, s'')
    end.

(** Code of the page run from the handler. *)
Definition on_page {A} (m : ST Page A) : ST Ui A :=
  fun ui =>
    let '(c, p) := m (page ui) in
    (c, {| page := p; urls_value := urls_value ui;
           loading_hidden := loading_hidden ui;
           button_disabled := button_disabled ui; posted := posted ui |}).

(** [loadingIndicator.classList.add('hidden')] for [true],
    [.remove('hidden')] for [false]. *)
Definition set_loading_hidden (b : bool) : ST Ui unit :=
  fun ui =>
    (Normal tt, {| page := page ui; urls_value := urls_value ui;
                   loading_hidden := b;
                   button_disabled := button_disabled ui; posted := posted ui |}).

(** [scrapeButton.disabled = b] *)
Definition set_button_disabled (b : bool) : ST Ui unit :=
  fun ui =>
    (Normal tt, {| page := page ui; urls_value := urls_value ui;
                   loading_hidden := loading_hidden ui;
                   button_disabled := b; posted := posted ui |}).

(** [resultsArea.insertAdjacentHTML('beforeend', html)]; the handler calls
    it on a results area that it has emptied. *)
Definition insertAdjacentHTML_beforeend (html : jsstring) : ST Page unit :=
  fun p =>
    (Normal tt, {| resultsArea := resultsArea p ++ html;
                   localStorage := localStorage p |}).

Section Handler.

(** The values that [response.json()] and [JSON.parse] produce. *)
Variable Value : Type.
(** How the k-th [POST] of a URL list to [/scrape] settles, counted from 0. *)
Variable post : nat -> list jsstring -> Completion (Reply Value).
(** The text that [errorData.error || ''] gives in the template, for the
    body of an error response; reading the property throws on [null]. *)
Variable error_text : Value -> Completion jsstring.
(** [JSON.stringify(results)] *)
Variable JSON_stringify : Value -> jsstring.
(** Whether storing this text exceeds the quota of [localStorage]. *)
Variable over_quota : jsstring -> bool.
(** [displayResults(results)], as for the loader. *)
Variable displayResults : Value -> ST jsstring unit.

(** [localStorage.setItem(key, value)] *)
Definition setItem (key value : jsstring) : ST Page unit :=
  fun p =>
    if over_quota value then (Throw QuotaExceededError, p)
    else (Normal tt, {| resultsArea := resultsArea p;
                        localStorage := <[key := value]> (localStorage p) |}).

(** [await fetch('/scrape', { method: 'POST', ..., body: JSON.stringify({ urls }) })] *)
Definition fetch_scrape (urls : list jsstring) : ST Ui (Reply Value) :=
  fun ui =>
    (post (length (posted ui)) urls,
     {| page := page ui; urls_value := urls_value ui;
        loading_hidden := loading_hidden ui;
        button_disabled := button_disabled ui;
        posted := posted ui ++ [urls] |}).

(** The [try] block of the handler. *)
Definition on_click_try (urls : list jsstring) : ST Ui unit :=
  response ← fetch_scrape urls;
  if negb (ok response)
  then
    errorText ← lift (match json response with
                      | Normal errorData => error_text errorData
                      | Throw _ => Normal (lit "Unknown server error")
                      end);
    throw (Error (server_error response errorText))
  else
    results ← lift (json response);
    _ ← try_catch
          (on_page (setItem storageKey (JSON_stringify results)))
          (fun storageError => on_page (insertAdjacentHTML_beforeend storage_note));
    on_page (call_displayResults Value displayResults results).

(** The listener of the click on the scrape button, run to its end: the
    button is disabled while the handler waits, and no other handler of
    the page is taken to run in between. *)
Definition on_click : ST Ui unit :=
  fun ui =>
    let urls := read_urls (urls_value ui) in
    (if length urls =? 0
     then on_page (set_innerHTML validation_message)
     else
       _ ← set_loading_hidden false;
       _ ← on_page (set_innerHTML []);
       _ ← set_button_disabled true;
       try_finally
         (try_catch
            (on_click_try urls)
            (fun error => on_page (set_innerHTML (scraping_error (message error)))))
         (_ ← set_loading_hidden true; set_button_disabled false)) ui.

(** The ways in which the exchange with the server fails for the k-th
    [POST], each with the message of the error that reaches the [catch]
    block of the handler: the request is rejected, the status is outside
    200-299 (with a body that cannot be read, a body with its error text,
    or a body on which reading [error] throws), or the body of a good
    response cannot be read. *)
Inductive failed_request (k : nat) (urls : list jsstring) : jsstring -> Prop :=
| failed_fetch e :
    post k urls = Throw e ->
    failed_request k urls (message e)
| failed_status_unreadable r e :
    post k urls = Normal r -> ok r = false -> json r = Throw e ->
    failed_request k urls (server_error r (lit "Unknown server error"))
| failed_status r errorData text :
    post k urls = Normal r -> ok r = false -> json r = Normal errorData ->
    error_text errorData = Normal text ->
    failed_request k urls (server_error r text)
| failed_status_body r errorData e :
    post k urls = Normal r -> ok r = false -> json r = Normal errorData ->
    error_text errorData = Throw e ->
    failed_request k urls (message e)
| failed_body r e :
    post k urls = Normal r -> ok r = true -> json r = Throw e ->
    failed_request k urls (message e).

End Handler.

(** *** [displayResults] on the outcomes that the server sends

    The argument is an array of the objects that [scrapeUrl] returns, as
    the answer of the server holds them: [url], [status] and [error] are
    strings, [records] is an array of records. *)

(** The number of occurrences of a character in a string. *)
Definition count_char (c : N) (s : jsstring) : nat :=
  length (List.filter (fun x => (x =? c)%N) s).

(** [String(x).replace(/</g, "&lt;").replace(/>/g, "&gt;")] on a string. *)
Definition replace_all (c : N) (replacement : jsstring) (s : jsstring) : jsstring :=
  flat_map (fun x => if (x =? c)%N then replacement else [x]) s.

Definition sanitize (s : jsstring) : jsstring :=
  replace_all 62 (lit "&gt;") (replace_all 60 (lit "&lt;") s).

(** The body of the [for (const key in record)] loop.  The keys of a
    record are visited in insertion order, none of them being an array
    index. *)
Definition record_field (entry : jsstring * jsstring) : jsstring :=
  lit "<strong>" ++ sanitize (fst entry) ++ lit ":</strong> "
  ++ sanitize (snd entry) ++ lit "<br>".

(** What the callback of [records.slice(0, 10).forEach] adds. *)
Definition record_item (record : Record_) : jsstring :=
  lit "<li>" ++ flat_map record_field record ++ lit "</li>".

(** The markup for the records of a successful result. *)
Definition records_markup (records : list Record_) : jsstring :=
  if 0 <? length records
  then lit "<p>Found " ++ of_nat (length records) ++ lit " record(s):</p>"
       ++ lit "<ul>"
       ++ flat_map record_item (take 10 records)
       ++ (if 10 <? length records
           then lit "<li>... and " ++ of_nat (length records - 10) ++ lit " more</li>"
           else [])
       ++ lit "</ul>"
  else lit "<p>No records found or extracted for this URL.</p>".

(** [x || fallback] on a string. *)
Definition or_else (x fallback : jsstring) : jsstring :=
  if truthy x then x else fallback.

(** The [content] that the callback of [results.forEach] builds for one
    result and assigns to the [innerHTML] of its [div]. *)
Definition result_content (result : Outcome) : jsstring :=
  let url := or_else (outcome_url result) (lit "Unknown URL") in
  let status := or_else (outcome_status result) (lit "unknown") in
  lit "<h3>" ++ url ++ lit "</h3>"
  ++ lit "<p>Status: <span class=" ++ dq ++ lit "status-" ++ status ++ dq
  ++ lit ">" ++ status ++ lit "</span></p>"
  ++ match result with
     | Success _ records => records_markup records
     | Failure _ error =>
         lit "<p class=" ++ dq ++ lit "error-message" ++ dq ++ lit ">Error: "
         ++ sanitize (or_else error (lit "Unknown error")) ++ lit "</p>"
     end.

(** The results area after [displayResults]: markup assigned to its
    [innerHTML], or the contents of the [div.result-item] children appended
    to it after it was emptied. *)
Inductive Area : Type :=
| Markup (html : jsstring)
| Items (contents : list jsstring).

(** [displayResults(results)] for an array of outcomes. *)
Definition displayResults (results : list Outcome) : Area :=
  if length results =? 0
  then Markup (lit "<p>No results found or provided.</p>")
  else Items (map result_content results).

End Client.

(** ** Sample states of the front end for the closed examples *)

Module Demo.
Import Frontend Client.

(** The text of the URL box: two URLs around a line that is not one. *)
Definition box_text : jsstring :=
  lit "  http://example.com/ " ++ [10%N] ++ lit "not a url" ++ [10%N]
  ++ lit "https://slow.example/".

Definition box_urls : list jsstring :=
  [lit "http://example.com/"; lit "https://slow.example/"].

(** A freshly loaded page with the given text in the box. *)
Definition fresh (text : jsstring) : Ui :=
  {| page := {| resultsArea := initial_message; localStorage := ∅ |};
     urls_value := text; loading_hidden := true; button_disabled := false;
     posted := [] |}.

(** The outcomes of a batch in which every scrape timed out. *)
Definition timed_out (urls : list jsstring) : list Outcome :=
  map (fun url => Failure url (lit "Request timed out")) urls.

(** A server that answers every list with these outcomes. *)
Definition post_ok (k : nat) (urls : list jsstring)
  : Completion (Reply (list Outcome)) :=
  Normal {| status := 200; statusText := lit "OK"; json := Normal (timed_out urls) |}.

(** A server that cannot be reached. *)
Definition post_down (k : nat) (urls : list jsstring)
  : Completion (Reply (list Outcome)) :=
  Throw {| name := lit "TypeError"; message := lit "Failed to fetch" |}.

(** An array has no [error] property. *)
Definition error_text (errorData : list Outcome) : Completion jsstring :=
  Normal [].

(** [JSON.stringify] and [JSON.parse] as they act on the results of the
    example and on the text that stands for them. *)
Definition stringify (results : list Outcome) : jsstring := lit "[...]".

Definition parse (text : jsstring) : Completion (list Outcome) :=
  Normal (timed_out box_urls).

(** A display that writes the number of results. *)
Definition display (results : list Outcome) : ST jsstring unit :=
  fun html => (Normal tt, of_nat (length results)).

Definition roomy (text : jsstring) : bool := false.
Definition full (text : jsstring) : bool := true.

End Demo.

(** * Properties *)

(** ** Strings *)

Section StringFacts.

Lemma startsWith_spec (s p : jsstring) :
  startsWith s p = true <-> exists post, s = p ++ post.
Proof.
  revert s. induction p as [|a p IH]; intros s; simpl.
  - split; [intros _; by exists s | done].
  - destruct s as [|b s].
    + split; [done | intros [post H]; discriminate].
    + rewrite andb_true_iff, N.eqb_eq, IH. split.
      * intros [-> [post ->]]. eauto.
      * intros [post H]. injection H as -> ->. eauto.
Qed.

Lemma includes_spec (s sub : jsstring) :
  includes s sub = true <-> exists pre post, s = pre ++ sub ++ post.
Proof.
  induction s as [|c s IH]; simpl.
  - rewrite orb_false_r, startsWith_spec. split.
    + intros [post H]. by exists [], post.
    + intros [pre [post H]]. destruct pre as [|x pre]; [eauto | discriminate].
  - rewrite orb_true_iff, startsWith_spec, IH. split.
    + intros [[post H] | [pre [post H]]].
      * by exists [], post.
      * exists (c :: pre), post. by rewrite H.
    + intros [pre [post H]]. destruct pre as [|x pre].
      * left. eauto.
      * right. injection H as _ H. eauto.
Qed.

Lemma includes_middle (pre sub post : jsstring) :
  includes (pre ++ sub ++ post) sub = true.
Proof. apply includes_spec. eauto. Qed.

Lemma trimStart_blank (s : jsstring) :
  forallb is_white_space s = true -> trimStart s = [].
Proof.
  induction s as [|c s IH]; simpl; [done |].
  intros [Hc Hs]%andb_true_iff. rewrite Hc. auto.
Qed.

Lemma trim_blank (s : jsstring) :
  forallb is_white_space s = true -> trim s = [].
Proof. intros H. unfold trim. by rewrite (trimStart_blank s H). Qed.

Lemma truthy_true (s : jsstring) : truthy s = true <-> s <> [].
Proof. destruct s; simpl; split; done. Qed.

(** A string with something left after trimming is not empty. *)
Lemma trim_truthy (s : jsstring) : trim s <> [] -> truthy s = true.
Proof. intros H. apply truthy_true. intros ->. by apply H. Qed.

End StringFacts.

(** ** Trimming *)

Section TrimFacts.

Lemma trimStart_head (s : jsstring) :
  trimStart s = [] \/
  exists c t, trimStart s = c :: t /\ is_white_space c = false.
Proof.
  induction s as [|c s IH]; simpl; [by left |].
  destruct (is_white_space c) eqn:Hc; [done |]. right. eauto.
Qed.

Lemma trimStart_fixed c (t : jsstring) :
  is_white_space c = false -> trimStart (c :: t) = c :: t.
Proof. intros H. simpl. by rewrite H. Qed.

Lemma trimStart_idemp (s : jsstring) : trimStart (trimStart s) = trimStart s.
Proof.
  destruct (trimStart_head s) as [-> | (c & t & -> & Hc)]; [done |].
  by apply trimStart_fixed.
Qed.

(** Trimming the start of a string that ends in a character that is not
    white space keeps that character. *)
Lemma trimStart_snoc (a : jsstring) c :
  is_white_space c = false -> exists a', trimStart (a ++ [c]) = a' ++ [c].
Proof.
  intros Hc. induction a as [|x a IH]; simpl.
  - rewrite Hc. by exists [].
  - destruct (is_white_space x); [done |]. by exists (x :: a).
Qed.

Lemma trimEnd_head c (t : jsstring) :
  is_white_space c = false -> exists t', trimEnd (c :: t) = c :: t'.
Proof.
  intros Hc. unfold trimEnd. simpl.
  destruct (trimStart_snoc (rev t) c Hc) as [a' Ha].
  change (rev t ++ [c]) with (rev t ++ [c]) in Ha.
  exists (rev a'). by rewrite Ha, rev_app_distr.
Qed.

Lemma trimEnd_idemp (s : jsstring) : trimEnd (trimEnd s) = trimEnd s.
Proof. unfold trimEnd. by rewrite rev_involutive, trimStart_idemp. Qed.

(** [trim] leaves a trimmed string as it is. *)
Lemma trim_idemp (s : jsstring) : trim (trim s) = trim s.
Proof.
  unfold trim. destruct (trimStart_head s) as [-> | (c & t & -> & Hc)]; [done |].
  destruct (trimEnd_head c t Hc) as [t' Ht]. rewrite Ht.
  rewrite (trimStart_fixed c t' Hc), <- Ht. apply trimEnd_idemp.
Qed.

(** A string that [trim] leaves as it is neither starts nor ends with white
    space. *)
Lemma trim_fixed_ends (s : jsstring) c :
  trim s = s -> head s = Some c \/ last s = Some c -> is_white_space c = false.
Proof.
  intros Hfix [Hh | Hl].
  - destruct s as [|x s]; [done |]. injection Hh as ->.
    destruct (is_white_space c) eqn:Hc; [|done].
    exfalso. unfold trim in Hfix. simpl in Hfix. rewrite Hc in Hfix.
    assert (Hlen : length (trimEnd (trimStart s)) <= length s).
    { unfold trimEnd. rewrite length_rev.
      assert (Hdrop : forall x : jsstring, length (trimStart x) <= length x).
      { intros x. induction x as [|y x IH]; simpl; [done |].
        destruct (is_white_space y); simpl; lia. }
      etrans; [apply Hdrop |]. rewrite length_rev. apply Hdrop. }
    rewrite Hfix in Hlen. simpl in Hlen. lia.
  - destruct (is_white_space c) eqn:Hc; [|done]. exfalso.
    apply last_Some in Hl as [l' ->].
    unfold trim, trimEnd in Hfix. apply (f_equal (@rev N)) in Hfix.
    rewrite rev_involutive, rev_app_distr in Hfix. simpl in Hfix.
    destruct (trimStart_head (rev (trimStart (l' ++ [c]))))
      as [He | (d & t & Hd & Hws)].
    + by rewrite He in Hfix.
    + rewrite Hd in Hfix. injection Hfix as -> _. congruence.
Qed.

(** What [trim] removes: the string is its trimmed form between two runs of
    white space, and the trimmed form neither starts nor ends with white
    space. *)
Lemma trim_decompose (s : jsstring) :
  exists before after,
    s = before ++ trim s ++ after /\
    forallb is_white_space before = true /\
    forallb is_white_space after = true /\
    (forall c, head (trim s) = Some c \/ last (trim s) = Some c ->
               is_white_space c = false).
Proof.
  assert (Hstart : forall x : jsstring,
            exists pre, x = pre ++ trimStart x /\ forallb is_white_space pre = true).
  { intros x. induction x as [|c x (pre & IH & Hpre)]; simpl; [by exists [] |].
    destruct (is_white_space c) eqn:Hc; [|by exists []].
    exists (c :: pre). simpl. rewrite Hc, Hpre. split; [by f_equal | done]. }
  destruct (Hstart s) as (before & Hs & Hbefore).
  destruct (Hstart (rev (trimStart s))) as (post & Hr & Hpost).
  exists before, (rev post). split_and!.
  - rewrite Hs at 1. f_equal. unfold trim, trimEnd.
    rewrite <- rev_app_distr, <- Hr. by rewrite rev_involutive.
  - done.
  - apply forallb_forall. intros c Hc%in_rev.
    by apply (proj1 (forallb_forall _ _) Hpost).
  - intros c. apply trim_fixed_ends, trim_idemp.
Qed.

End TrimFacts.

(** ** Promises *)

Section PromiseFacts.
Context {A : Type}.
Implicit Types (ps : list (Settled A)) (values : list (option (Settled A))).

Lemma settle_slot_length ps values i :
  length (settle_slot ps values i) = length values.
Proof. unfold settle_slot. destruct (ps !! i); [apply length_insert | done]. Qed.

(** A pass over settlement events keeps the filled slots right and fills
    the slot of every promise that settles. *)
Lemma foldl_settle_slot ps order : forall values,
  length values = length ps ->
  (forall i r, values !! i = Some (Some r) -> ps !! i = Some r) ->
  let final := foldl (settle_slot ps) values order in
  length final = length ps /\
  (forall i r, final !! i = Some (Some r) -> ps !! i = Some r) /\
  (forall i r, ps !! i = Some r ->
               i ∈ order \/ values !! i = Some (Some r) ->
               final !! i = Some (Some r)).
Proof.
  induction order as [|j order IH]; intros values Hlen Hok; simpl.
  - split_and!; [done | done |].
    intros i r _ [Hin | H]; [by apply elem_of_nil in Hin | done].
  - assert (Hok' : forall i r, settle_slot ps values j !! i = Some (Some r) ->
                               ps !! i = Some r).
    { intros i r. unfold settle_slot. destruct (ps !! j) as [rj|] eqn:Hj; [|apply Hok].
      destruct (decide (j = i)) as [->|Hne].
      - rewrite list_lookup_insert_eq; [congruence |].
        rewrite Hlen. by eapply lookup_lt_Some.
      - rewrite list_lookup_insert_ne by done. apply Hok. }
    destruct (IH (settle_slot ps values j)) as (Hl & Hsound & Hfill);
      [by rewrite settle_slot_length | done |].
    split_and!; [done | done |].
    intros i r Hi Hcase. apply Hfill; [done |].
    destruct Hcase as [[-> | Hin]%elem_of_cons | Hv]; [right | by left | right].
    + unfold settle_slot. rewrite Hi. apply list_lookup_insert_eq.
      rewrite Hlen. by eapply lookup_lt_Some.
    + unfold settle_slot. destruct (ps !! j) as [rj|] eqn:Hj; [|done].
      destruct (decide (j = i)) as [->|Hne].
      * rewrite list_lookup_insert_eq; [congruence |].
        rewrite Hlen. by eapply lookup_lt_Some.
      * by rewrite list_lookup_insert_ne.
Qed.

(** Once every promise has settled, in whatever order, [allSettled]
    resolves with the results in the order of the promises. *)
Lemma allSettled_complete ps order :
  (forall i, i < length ps -> i ∈ order) ->
  allSettled ps order = Some ps.
Proof.
  intros Hall. unfold allSettled.
  destruct (foldl_settle_slot ps order (replicate (length ps) None))
    as (Hlen & _ & Hfill).
  { apply length_replicate. }
  { intros i r [H _]%lookup_replicate. discriminate. }
  set (final := foldl _ _ _) in *.
  assert (final = Some <$> ps) as ->.
  { apply list_eq. intros i. rewrite list_lookup_fmap.
    destruct (ps !! i) as [r|] eqn:Hi; simpl.
    - apply Hfill; [done |]. left. apply Hall. by eapply lookup_lt_Some.
    - apply lookup_ge_None. rewrite Hlen. by apply lookup_ge_None. }
  by apply mapM_fmap_Some.
Qed.

Lemma allSettled_permutation ps order :
  order ≡ₚ seq 0 (length ps) -> allSettled ps order = Some ps.
Proof.
  intros Hperm. apply allSettled_complete. intros i Hi.
  rewrite Hperm. apply elem_of_seq. lia.
Qed.

End PromiseFacts.

(** ** The scraper *)

(** Unfold the monadic operations down to matches on completions. *)
Ltac unfold_monad :=
  unfold mbind, ST_bind, bind, lift, throw, try_catch, mret, ST_ret, ret,
    Completion_bind, Completion_ret.

Section ScraperFacts.
Import Cheerio Server.

Variable net : nat -> Fetch.Exchange.
Variable load : jsstring -> Completion Document.
Variable URL_href : jsstring -> jsstring -> Completion jsstring.

Local Abbreviation scrapeUrl := (Server.scrapeUrl net load URL_href).
Local Abbreviation scrapeUrl_try := (Server.scrapeUrl_try net load URL_href).
Local Abbreviation extract_records := (Server.extract_records URL_href).
Local Abbreviation product_pod := (Server.product_pod URL_href).
Local Abbreviation failure_path := (Server.failure_path load URL_href).
Local Abbreviation fetched := (Server.fetched load).
Local Abbreviation post_scrape := (Server.post_scrape net load URL_href).
Local Abbreviation scrape_route := (Server.scrape_route net load URL_href).

(** The [try] block issues one request and then runs without touching the
    log. *)
Lemma scrapeUrl_try_run url log :
  scrapeUrl_try url log =
  ((response ← Fetch.settle (net (length log));
    _ ← (if negb (Fetch.ok response)
         then Throw (Error (failed_to_fetch url response))
         else Normal tt);
    html ← Fetch.text response;
    doc ← load html;
    records ← extract_records url doc;
    mret (Success url records)),
   log ++ [url]).
Proof.
  unfold Server.scrapeUrl_try, fetch. unfold_monad.
  destruct (Fetch.settle (net (length log))) as [r|e]; [|done].
  destruct (Fetch.ok r); simpl; [|done].
  destruct (Fetch.text r) as [html|e]; [|done].
  destruct (load html) as [doc|e]; [|done].
  by destruct (Server.extract_records URL_href url doc).
Qed.

(** What [scrapeUrl] makes of the completion of its [try] block. *)
Lemma scrapeUrl_run url log c :
  (scrapeUrl_try url log).1 = c ->
  scrapeUrl url log =
  (fulfilled (match c with
              | Normal o => o
              | Throw e => Failure url (failure_message e)
              end), log ++ [url]).
Proof.
  intros <-. unfold Server.scrapeUrl, async, try_catch.
  rewrite scrapeUrl_try_run. simpl.
  by destruct (_ ≫= _).
Qed.

Lemma scrapeUrl_try_url url log o :
  (scrapeUrl_try url log).1 = Normal o -> outcome_url o = url.
Proof.
  rewrite scrapeUrl_try_run. simpl. unfold_monad.
  destruct (Fetch.settle _) as [r|]; [|done].
  destruct (negb _); [done |].
  destruct (Fetch.text r) as [html|]; [|done].
  destruct (load html) as [doc|]; [|done].
  destruct (Server.extract_records _ _ _); [|done].
  by intros [= <-].
Qed.

(** Each failure path ends the [try] block with its error. *)
Lemma failure_path_throws url log e :
  failure_path url (net (length log)) e ->
  (scrapeUrl_try url log).1 = Throw e.
Proof.
  rewrite scrapeUrl_try_run. simpl. unfold_monad.
  intros [Hto | e' Hto He | r Hr Hok | r e' Hr Hok Ht
         | r html e' Hr Hok Ht Hl | r html doc e' Hr Hok Ht Hl Hx].
  - unfold Fetch.settle. by rewrite Hto.
  - unfold Fetch.settle. by rewrite Hto, He.
  - by rewrite Hr, Hok.
  - by rewrite Hr, Hok, Ht.
  - by rewrite Hr, Hok, Ht, Hl.
  - by rewrite Hr, Hok, Ht, Hl, Hx.
Qed.

(** The [try] block fails on these paths only. *)
Lemma throws_failure_path url log e :
  (scrapeUrl_try url log).1 = Throw e ->
  failure_path url (net (length log)) e.
Proof.
  rewrite scrapeUrl_try_run. simpl. unfold_monad.
  destruct (Fetch.settle _) as [r|e0] eqn:Hr.
  - destruct (Fetch.ok r) eqn:Hok; simpl.
    + destruct (Fetch.text r) as [html|e1] eqn:Ht.
      * destruct (load html) as [doc|e2] eqn:Hl.
        -- destruct (Server.extract_records _ _ _) as [recs|e3] eqn:Hx; [done |].
           intros [= <-]. by eapply Server.path_extraction.
        -- intros [= <-]. by eapply Server.path_parse.
      * intros [= <-]. by eapply Server.path_body.
    + intros [= <-]. by eapply Server.path_status.
  - intros [= <-]. unfold Fetch.settle in Hr.
    destruct (Fetch.timed_out _) eqn:Hto.
    + injection Hr as <-. by apply Server.path_timeout.
    + by apply Server.path_network.
Qed.

Lemma scrapeUrl_fetched url log doc :
  fetched (net (length log)) doc ->
  (scrapeUrl_try url log).1 =
  (records ← extract_records url doc; mret (Success url records)).
Proof.
  intros (r & html & Hr & Hok & Ht & Hl).
  rewrite scrapeUrl_try_run. simpl. by rewrite Hr; simpl; rewrite Hok, Ht; simpl; rewrite Hl.
Qed.

Lemma failure_message_Error msg : failure_message (Error msg) = msg.
Proof. reflexivity. Qed.

Lemma failure_message_AbortError :
  failure_message AbortError = lit "Request timed out".
Proof. reflexivity. Qed.

(** The promise of [scrapeUrl] is fulfilled, after one request, with an
    outcome for the URL. *)
Lemma scrapeUrl_fulfils url log :
  exists o, scrapeUrl url log = (fulfilled o, log ++ [url]) /\ outcome_url o = url.
Proof.
  destruct (scrapeUrl_try url log).1 as [o|e] eqn:Htry.
  - exists o. split; [by apply (scrapeUrl_run url log (Normal o)) |].
    by eapply scrapeUrl_try_url.
  - exists (Failure url (failure_message e)).
    split; [by apply (scrapeUrl_run url log (Throw e)) | done].
Qed.

(** A failure of the [try] block becomes a [Failure] outcome. *)
Lemma scrapeUrl_failure url log e :
  failure_path url (net (length log)) e ->
  scrapeUrl url log = (fulfilled (Failure url (failure_message e)), log ++ [url]).
Proof.
  intros He%(failure_path_throws _ log). by apply (scrapeUrl_run url log (Throw e)).
Qed.

(** A [Failure] outcome comes from a failure of the [try] block only. *)
Lemma scrapeUrl_Failure_inv url log u msg :
  (scrapeUrl url log).1 = fulfilled (Failure u msg) ->
  exists e, failure_path url (net (length log)) e /\ msg = failure_message e.
Proof.
  destruct (scrapeUrl_try url log).1 as [o|e] eqn:Htry.
  - rewrite (scrapeUrl_run url log (Normal o) Htry). simpl. intros [= ->].
    pose proof Htry as Hrun. rewrite scrapeUrl_try_run in Hrun. simpl in Hrun.
    unfold mbind, Completion_bind, mret, Completion_ret in Hrun.
    destruct (Fetch.settle _) as [r|]; [|done].
    destruct (negb _); [done |].
    destruct (Fetch.text r) as [html|]; [|done].
    destruct (load html) as [doc|]; [|done].
    by destruct (Server.extract_records _ _ _).
  - rewrite (scrapeUrl_run url log (Throw e) Htry). simpl. intros [= _ <-].
    exists e. split; [by apply throws_failure_path | done].
Qed.

(** C2: a call of [scrapeUrl] on any string resolves with one outcome that
    carries the URL, and it never rejects: whichever way the [try] block
    fails (timeout, network error, status outside 200-299, failure to read
    or parse the body, exception in the extraction), the outcome is a
    [Failure] for that URL with the message of the error. *)
Theorem scrapeUrl_never_throws url log :
  (exists o, scrapeUrl url log = (fulfilled o, log ++ [url]) /\ outcome_url o = url) /\
  (forall e, failure_path url (net (length log)) e ->
             scrapeUrl url log =
             (fulfilled (Failure url (failure_message e)), log ++ [url])).
Proof.
  split.
  - apply scrapeUrl_fulfils.
  - intros e. apply scrapeUrl_failure.
Qed.

(** C3: when the 15 second timer fires before the request has settled, the
    outcome is a [Failure] whose message is exactly "Request timed out". *)
Theorem scrapeUrl_timeout url log :
  Fetch.timed_out (net (length log)) = true ->
  scrapeUrl url log =
  (fulfilled (Failure url (lit "Request timed out")), log ++ [url]).
Proof.
  intros Hto.
  rewrite <- failure_message_AbortError.
  apply scrapeUrl_failure. by apply path_timeout.
Qed.

(** C4: a response whose status is outside 200-299 gives, after that one
    request, a [Failure] with the message
    "Failed to fetch <url>: <status> <statusText>"; for status 404 the
    message contains "404". *)
Theorem scrapeUrl_http_error url log r :
  Fetch.settle (net (length log)) = Normal r ->
  ~ (200 <= Fetch.status r <= 299) ->
  scrapeUrl url log =
  (fulfilled (Failure url (lit "Failed to fetch " ++ url ++ lit ": "
                           ++ of_nat (Fetch.status r) ++ lit " "
                           ++ Fetch.statusText r)),
   log ++ [url]) /\
  (Fetch.status r = 404 ->
   includes (lit "Failed to fetch " ++ url ++ lit ": "
             ++ of_nat (Fetch.status r) ++ lit " " ++ Fetch.statusText r)
            (lit "404") = true).
Proof.
  intros Hr Hstatus. split.
  - rewrite <- (failure_message_Error (_ ++ _)).
    apply scrapeUrl_failure. apply path_status; [done |].
    unfold Fetch.ok. apply andb_false_iff.
    destruct (Nat.leb_spec 200 (Fetch.status r)); [right | by left].
    apply Nat.leb_gt. lia.
  - intros ->. change (of_nat 404) with (lit "404").
    rewrite (app_assoc _ url), (app_assoc _ (lit ": ")).
    apply includes_middle.
Qed.

(** The text of a selection of one node. *)
Lemma text_first (h : Node) (rest : list Node) :
  Cheerio.text (first (h :: rest)) = node_text h.
Proof. unfold Cheerio.text, first. simpl. apply app_nil_r. Qed.

(** What the [else] branch makes of a fetched page. *)
Lemma scrapeUrl_generic url log doc :
  includes url (lit "books.toscrape.com") = false ->
  fetched (net (length log)) doc ->
  scrapeUrl url log =
  (fulfilled (Success url (scrape_generic doc)), log ++ [url]).
Proof.
  intros Hurl Hdoc. apply (scrapeUrl_run url log (Normal _)).
  rewrite (scrapeUrl_fetched url log doc Hdoc).
  unfold Server.extract_records. by rewrite Hurl.
Qed.

(** C5: for a URL that does not contain the known host, and a page that
    was fetched and parsed, the outcome is a [Success] without records
    when the page has no [h1].  When it has one, take the first in document
    order: its text is a title between two runs of white space, the title
    neither starting nor ending with white space; the outcome is a
    [Success] with the single record {title, source: "Generic H1 scrape"}
    when that title is not empty, and a [Success] without records when it
    is empty. *)
Theorem generic_fallback url log doc :
  includes url (lit "books.toscrape.com") = false ->
  fetched (net (length log)) doc ->
  (select (is_tag (lit "h1")) doc = [] ->
   scrapeUrl url log = (fulfilled (Success url []), log ++ [url])) /\
  (forall h rest,
     select (is_tag (lit "h1")) doc = h :: rest ->
     exists before title after,
       node_text h = before ++ title ++ after /\
       forallb is_white_space before = true /\
       forallb is_white_space after = true /\
       (forall c, head title = Some c \/ last title = Some c ->
                  is_white_space c = false) /\
       (title <> [] ->
        scrapeUrl url log =
        (fulfilled (Success url [[(lit "title", title);
                                  (lit "source", lit "Generic H1 scrape")]]),
         log ++ [url])) /\
       (title = [] ->
        scrapeUrl url log = (fulfilled (Success url []), log ++ [url]))).
Proof.
  intros Hurl Hdoc. rewrite (scrapeUrl_generic url log doc Hurl Hdoc).
  unfold scrape_generic, genericTitle. split.
  - by intros ->.
  - intros h rest ->. rewrite text_first.
    destruct (trim_decompose (node_text h)) as (before & after & Htext & Hb & Ha & Hends).
    exists before, (trim (node_text h)), after.
    split_and!; [done | done | done | done | |].
    + intros Hne%truthy_true. by rewrite Hne.
    + intros Hnil. by rewrite Hnil.
Qed.

(** C9: the extraction policy is chosen by a substring test on the whole
    URL: a URL that contains "books.toscrape.com" anywhere gets the books
    policy, also when the text is in the query of another host, and any
    other URL gets the fallback policy. *)
Theorem policy_by_substring url doc :
  ((exists pre post, url = pre ++ lit "books.toscrape.com" ++ post) ->
   extract_records url doc = scrape_books URL_href url doc) /\
  (~ (exists pre post, url = pre ++ lit "books.toscrape.com" ++ post) ->
   extract_records url doc = Normal (scrape_generic doc)) /\
  extract_records (lit "http://evil.example/?next=books.toscrape.com") doc
  = scrape_books URL_href (lit "http://evil.example/?next=books.toscrape.com") doc.
Proof.
  unfold Server.extract_records. split_and!.
  - intros H%includes_spec. by rewrite H.
  - intros H. destruct (includes _ _) eqn:Hinc; [|done].
    by apply includes_spec in Hinc.
  - reflexivity.
Qed.

(** *** The books policy *)

Local Abbreviation yields := (Server.yields URL_href).
Local Abbreviation well_formed := (Server.well_formed URL_href).
Local Abbreviation links_resolve := (Server.links_resolve URL_href).

Lemma product_pod_no_link url records element :
  truthy_opt (pod_relativeLink element) = false ->
  product_pod url records element = Normal records.
Proof.
  intros H. unfold Server.product_pod, required_fields. rewrite H. simpl.
  by rewrite andb_false_r.
Qed.

Lemma product_pod_resolved url records element href link :
  pod_relativeLink element = Some href -> href <> [] ->
  URL_href href url = Normal link ->
  product_pod url records element =
  Normal (if required_fields (pod_title element) (pod_price element) (Some link)
          then records ++ [book_record (trim (str (pod_title element)))
                                       (trim (pod_price element)) link]
          else records).
Proof.
  intros Hh Hne%truthy_true Hl. unfold Server.product_pod.
  rewrite Hh. simpl. rewrite Hne, Hl. simpl.
  by destruct (required_fields _ _ _).
Qed.

Lemma product_pod_throws url records element href e :
  pod_relativeLink element = Some href -> href <> [] ->
  URL_href href url = Throw e ->
  product_pod url records element = Throw e.
Proof.
  intros Hh Hne%truthy_true Hl. unfold Server.product_pod.
  rewrite Hh. simpl. by rewrite Hne, Hl.
Qed.

Lemma well_formed_required url element link :
  well_formed url element link ->
  required_fields (pod_title element) (pod_price element) (Some link) = true.
Proof.
  intros ((t & Ht & Htrim) & Hp & (h & _ & _ & _ & Hl)).
  unfold required_fields. rewrite Ht. simpl.
  rewrite (trim_truthy t Htrim), (trim_truthy _ Hp). by apply truthy_true.
Qed.

Lemma missing_not_required element link :
  missing_field element -> truthy_opt (pod_relativeLink element) = true ->
  required_fields (pod_title element) (pod_price element) link = false.
Proof.
  unfold required_fields. intros [H | [H | H]] Hl.
  - by rewrite H.
  - by rewrite H, andb_false_r.
  - congruence.
Qed.

(** One run of the callback, on a container whose link resolves if it has
    one. *)
Lemma product_pod_yields url records element :
  links_resolve url [element] ->
  exists recs, product_pod url records element = Normal (records ++ recs)
               /\ yields url element recs.
Proof.
  intros Hres.
  destruct (truthy_opt (pod_relativeLink element)) eqn:Hlink.
  - destruct (pod_relativeLink element) as [href|] eqn:Hh; [|done].
    apply truthy_true in Hlink.
    destruct (Hres element href) as (link & Hl & Hlne); [apply list_elem_of_here | done | done |].
    rewrite (product_pod_resolved url records element href link) by done.
    destruct (required_fields _ _ _) eqn:Hreq.
    + eexists. split; [done |]. split.
      * intros Hmiss. rewrite missing_not_required in Hreq; [done | done |].
        rewrite Hh. by apply truthy_true.
      * intros link' Hwf. destruct Hwf as (_ & _ & (h & Hh' & _ & Hl' & _)).
        congruence.
    + exists []. split; [by rewrite app_nil_r |]. split; [done |].
      intros link' Hwf. pose proof (well_formed_required _ _ _ Hwf) as Hreq'.
      destruct Hwf as (_ & _ & (h & Hh' & _ & Hl' & _)).
      congruence.
  - rewrite product_pod_no_link by done.
    exists []. split; [by rewrite app_nil_r |]. split; [done |].
    intros link (_ & _ & (h & Hh & Hne%truthy_true & _)).
    rewrite Hh in Hlink. simpl in Hlink. congruence.
Qed.

(** The loop over the containers. *)
Lemma each_product_pod url pods : forall records,
  links_resolve url pods ->
  exists emitted,
    each (product_pod url) pods records = Normal (records ++ concat emitted)
    /\ Forall2 (yields url) pods emitted.
Proof.
  induction pods as [|element pods IH]; intros records Hres; simpl.
  - exists []. split; [by rewrite app_nil_r | constructor].
  - destruct (product_pod_yields url records element) as (recs & Hrun & Hy).
    { intros el h [->|Hin%elem_of_nil]%elem_of_cons; [|done].
      apply Hres. apply list_elem_of_here. }
    destruct (IH (records ++ recs)) as (emitted & Hrest & Hall).
    { intros el h Hin. apply Hres. by apply list_elem_of_further. }
    exists (recs :: emitted). rewrite Hrun. simpl.
    split; [by rewrite Hrest, app_assoc | by constructor].
Qed.

(** The loop stops at the first container whose link is rejected. *)
Lemma each_product_pod_throws url before element after href e : forall records,
  links_resolve url before ->
  pod_relativeLink element = Some href -> href <> [] ->
  URL_href href url = Throw e ->
  each (product_pod url) (before ++ element :: after) records = Throw e.
Proof.
  induction before as [|el before IH]; intros records Hres Hh Hne He; simpl.
  - by rewrite (product_pod_throws url records element href e).
  - destruct (product_pod_yields url records el) as (recs & -> & _).
    { intros x h [->|Hin%elem_of_nil]%elem_of_cons; [|done].
      apply Hres. apply list_elem_of_here. }
    simpl. apply IH; [|done..].
    intros x h Hin. apply Hres. by apply list_elem_of_further.
Qed.

Lemma yields_all_well_formed url pods emitted :
  Forall2 (yields url) pods emitted ->
  (forall element, element ∈ pods -> exists link, well_formed url element link) ->
  length (concat emitted) = length pods.
Proof.
  induction 1 as [|element recs pods emitted [_ Hwf] _ IH]; intros Hall; [done |].
  destruct (Hall element) as [link Hlink]; [apply list_elem_of_here |].
  rewrite (Hwf link Hlink). simpl. f_equal. apply IH.
  intros el Hin. apply Hall. by apply list_elem_of_further.
Qed.


Lemma is_blank_trim s : is_blank s = true -> truthy s = true /\ trim s = [].
Proof.
  unfold is_blank. intros [Ht Hws]%andb_true_iff. split; [done | by apply trim_blank].
Qed.


(** *** The batch *)

Lemma map_calls_scrapeUrl urls : forall log,
  exists outcomes,
    map_calls scrapeUrl urls log = (fulfilled <$> outcomes, log ++ urls)
    /\ outcome_url <$> outcomes = urls.
Proof.
  induction urls as [|url urls IH]; intros log; simpl.
  - exists []. by rewrite app_nil_r.
  - destruct (scrapeUrl_fulfils url log) as (o & -> & Ho).
    destruct (IH (log ++ [url])) as (os & -> & Hos).
    exists (o :: os). rewrite <- app_assoc. split; [done |].
    rewrite fmap_cons. by f_equal.
Qed.

Lemma to_response_fulfilled (outcomes : list Outcome) :
  map to_response (fulfilled <$> outcomes) = outcomes.
Proof. induction outcomes as [|o os IH]; simpl; [done | f_equal; exact IH]. Qed.

(** C1: for a non-empty array of URL strings, once every scrape has
    settled, in whatever order, the handler answers with one outcome per
    URL, and the outcome at each index carries the URL at that index,
    failures included. *)
Theorem post_scrape_keeps_order order urls log :
  urls <> [] ->
  order ≡ₚ seq 0 (length urls) ->
  exists responseData,
    post_scrape order (VArray urls) log =
    (Some {| code := 200; payload := OutcomesJson responseData |}, log ++ urls) /\
    length responseData = length urls /\
    (forall i url, urls !! i = Some url ->
                   outcome_url <$> responseData !! i = Some url).
Proof.
  intros Hne Hperm.
  destruct (map_calls_scrapeUrl urls log) as (outcomes & Hcalls & Hurls).
  exists outcomes. unfold Server.post_scrape.
  assert (negb (truthy_value (VArray urls)) || negb (isArray (VArray urls))
          || (length (elements (VArray urls)) =? 0) = false) as ->.
  { by destruct urls. }
  cbn [elements]. rewrite Hcalls, allSettled_permutation.
  2:{ by rewrite length_fmap, <- (length_fmap outcome_url), Hurls. }
  cbn [mbind option_bind]. rewrite to_response_fulfilled. split_and!.
  - done.
  - by rewrite <- Hurls, length_fmap.
  - intros i url Hi. by rewrite <- list_lookup_fmap, Hurls.
Qed.

(** The guard of the handler: a value of [urls] that is falsy, is not an
    array, or is an empty array is answered with status 400 and the
    message; no scrape is started, so no request goes out. *)
Lemma post_scrape_guard order urls log :
  truthy_value urls = false \/ isArray urls = false \/ urls = VArray [] ->
  post_scrape order urls log =
  (Some {| code := 400;
           payload := ErrorJson
             (lit "Please provide an array of URLs in the request body.") |},
   log).
Proof.
  unfold Server.post_scrape. intros [H | [H | ->]]; [| | done].
  - by rewrite H.
  - by rewrite H, orb_true_r.
Qed.


End ScraperFacts.

(** ** The cached-results loader *)

Section LoaderFacts.
Import Frontend.

Variable Value : Type.
Variable JSON_parse : jsstring -> Completion Value.
Variable displayResults : Value -> ST jsstring unit.

Local Abbreviation load_stored :=
  (loadAndDisplayStoredResults Value JSON_parse displayResults).

(** Nothing stored, or the empty string: the [else] branch. *)
Lemma load_stored_falsy page :
  truthy_opt (localStorage page !! storageKey) = false ->
  load_stored page =
  (Normal tt, {| resultsArea := initial_message; localStorage := localStorage page |}).
Proof.
  intros H. unfold loadAndDisplayStoredResults, getItem. unfold_monad.
  by rewrite H.
Qed.

(** Stored text that [JSON.parse] rejects: the [catch] block. *)
Lemma load_stored_rejected page (text : jsstring) e :
  localStorage page !! storageKey = Some text -> text <> [] ->
  JSON_parse text = Throw e ->
  load_stored page =
  (Normal tt, {| resultsArea := corrupted_message;
                 localStorage := delete storageKey (localStorage page) |}).
Proof.
  intros Hs Hne%truthy_true Hp.
  unfold loadAndDisplayStoredResults, getItem. unfold_monad.
  rewrite Hs. simpl. by rewrite Hne, Hp.
Qed.

(** Stored text that parses to something [displayResults] throws on: the
    [catch] block again, whatever was written to the results area. *)
Lemma load_stored_not_displayed page (text : jsstring) results e html :
  localStorage page !! storageKey = Some text -> text <> [] ->
  JSON_parse text = Normal results ->
  displayResults results (resultsArea page) = (Throw e, html) ->
  load_stored page =
  (Normal tt, {| resultsArea := corrupted_message;
                 localStorage := delete storageKey (localStorage page) |}).
Proof.
  intros Hs Hne%truthy_true Hp Hd.
  unfold loadAndDisplayStoredResults, getItem, call_displayResults. unfold_monad.
  rewrite Hs. simpl. by rewrite Hne, Hp, Hd.
Qed.

Lemma load_stored_returns page : (load_stored page).1 = Normal tt.
Proof.
  unfold loadAndDisplayStoredResults, getItem, call_displayResults. unfold_monad.
  destruct (truthy_opt _); [|done].
  destruct (JSON_parse _) as [results|e]; [|done].
  destruct (displayResults results (resultsArea page)) as [[[]|e] html]; done.
Qed.

(** C8 (amended): the routine never throws.  When nothing is stored under
    the key it shows the initial message and leaves the storage as it is;
    when the stored text is not empty and [JSON.parse] rejects it, or
    [displayResults] throws on what it parses to, it shows the message
    about corrupted results and removes the entry; a stored empty string is
    handled as if nothing were stored, and stays. *)
Theorem load_missing_or_malformed page :
  (load_stored page).1 = Normal tt /\
  (localStorage page !! storageKey = None ->
   load_stored page =
   (Normal tt, {| resultsArea := initial_message; localStorage := localStorage page |})) /\
  (forall (text : jsstring) e,
     localStorage page !! storageKey = Some text -> text <> [] ->
     JSON_parse text = Throw e ->
     load_stored page =
     (Normal tt, {| resultsArea := corrupted_message;
                    localStorage := delete storageKey (localStorage page) |})
     /\ localStorage (load_stored page).2 !! storageKey = None) /\
  (forall (text : jsstring) results e html,
     localStorage page !! storageKey = Some text -> text <> [] ->
     JSON_parse text = Normal results ->
     displayResults results (resultsArea page) = (Throw e, html) ->
     load_stored page =
     (Normal tt, {| resultsArea := corrupted_message;
                    localStorage := delete storageKey (localStorage page) |})) /\
  (localStorage page !! storageKey = Some ([] : jsstring) ->
   load_stored page =
   (Normal tt, {| resultsArea := initial_message; localStorage := localStorage page |})).
Proof.
  split_and!.
  - apply load_stored_returns.
  - intros H. apply load_stored_falsy. by rewrite H.
  - intros text e Hs Hne Hp.
    rewrite (load_stored_rejected page text e Hs Hne Hp).
    split; [done | apply lookup_delete_eq].
  - intros text results e html. apply load_stored_not_displayed.
  - intros H. apply load_stored_falsy. by rewrite H.
Qed.

End LoaderFacts.

(** ** The properties on the sample pages *)

Import Cheerio Server.

Example trim_sample : trim (lit "  A Light in the Attic  ") = lit "A Light in the Attic".
Proof. reflexivity. Qed.

Example of_nat_sample : of_nat 404 = lit "404".
Proof. reflexivity. Qed.

Example class_tokens_sample :
  has_class (lit "price_color") (Element (lit "p") [(lit "class", lit "big  price_color")] []) = true
  /\ has_class (lit "price") (Element (lit "p") [(lit "class", lit "price_color")] []) = false.
Proof. split; reflexivity. Qed.

Example three_books_pods :
  select is_product_pod Sample.three_books = [Sample.attic; Sample.velvet; Sample.soumission].
Proof. reflexivity. Qed.

(** The two URLs of a batch keep their places when the second scrape
    settles first. *)
Lemma post_scrape_keeps_order_sample :
  exists responseData,
    post_scrape Sample.net_silent (Sample.load_as Sample.example_page) Sample.URL_href
      [1; 0] (VArray [lit "http://a.example/"; lit "http://b.example/"]) []
    = (Some {| code := 200; payload := OutcomesJson responseData |},
       [] ++ [lit "http://a.example/"; lit "http://b.example/"]) /\
    length responseData = 2 /\
    (forall i url,
       [lit "http://a.example/"; lit "http://b.example/"] !! i = Some url ->
       outcome_url <$> responseData !! i = Some url).
Proof.
  apply (post_scrape_keeps_order Sample.net_silent (Sample.load_as Sample.example_page)
           Sample.URL_href [1; 0] [lit "http://a.example/"; lit "http://b.example/"] []).
  - discriminate.
  - apply perm_swap.
Defined.

(** A batch of a page that answers and one that does not, the second
    settling first. *)
Example mixed_batch :
  post_scrape (Sample.net_first_only 200 (lit "OK") [])
    (Sample.load_as Sample.example_page) Sample.URL_href
    [1; 0] (VArray [lit "http://example.com/"; lit "http://slow.example/"]) []
  = (Some {| code := 200;
             payload := OutcomesJson
               [ Success (lit "http://example.com/")
                   [generic_record (lit "Example Domain")];
                 Failure (lit "http://slow.example/") (lit "Request timed out") ] |},
     [lit "http://example.com/"; lit "http://slow.example/"]).
Proof. reflexivity. Qed.

Lemma scrapeUrl_timeout_sample :
  scrapeUrl Sample.net_silent (Sample.load_as Sample.example_page) Sample.URL_href
    (lit "http://slow.example/") []
  = (fulfilled (Failure (lit "http://slow.example/") (lit "Request timed out")),
     [] ++ [lit "http://slow.example/"]).
Proof.
  apply (scrapeUrl_timeout Sample.net_silent (Sample.load_as Sample.example_page)
           Sample.URL_href (lit "http://slow.example/") []).
  reflexivity.
Defined.

Lemma scrapeUrl_http_error_sample :
  scrapeUrl (Sample.net_status 404 (lit "Not Found") []) (Sample.load_as Sample.example_page)
    Sample.URL_href (lit "http://example.com/missing") []
  = (fulfilled (Failure (lit "http://example.com/missing")
                        (lit "Failed to fetch http://example.com/missing: 404 Not Found")),
     [lit "http://example.com/missing"]).
Proof.
  apply (scrapeUrl_http_error (Sample.net_status 404 (lit "Not Found") [])
           (Sample.load_as Sample.example_page) Sample.URL_href
           (lit "http://example.com/missing") []
           {| Fetch.status := 404; Fetch.statusText := lit "Not Found";
              Fetch.text := Normal [] |}).
  - reflexivity.
  - simpl. lia.
Defined.

(** The first of the two headings of the sample page, without the white
    space around it, is the title. *)
Example two_headings_outcome :
  scrapeUrl (Sample.net_status 200 (lit "OK") []) (Sample.load_as Sample.two_headings)
    Sample.URL_href (lit "http://example.com/") []
  = (fulfilled (Success (lit "http://example.com/")
                  [[(lit "title", lit "Example Domain");
                    (lit "source", lit "Generic H1 scrape")]]),
     [lit "http://example.com/"]).
Proof. reflexivity. Qed.

Lemma generic_fallback_sample :
  (select (is_tag (lit "h1")) Sample.two_headings = [] ->
   scrapeUrl (Sample.net_status 200 (lit "OK") []) (Sample.load_as Sample.two_headings)
     Sample.URL_href (lit "http://example.com/") []
   = (fulfilled (Success (lit "http://example.com/") []),
      [] ++ [lit "http://example.com/"])) /\
  (forall h rest,
     select (is_tag (lit "h1")) Sample.two_headings = h :: rest ->
     exists before title after,
       node_text h = before ++ title ++ after /\
       forallb is_white_space before = true /\
       forallb is_white_space after = true /\
       (forall c, head title = Some c \/ last title = Some c ->
                  is_white_space c = false) /\
       (title <> [] ->
        scrapeUrl (Sample.net_status 200 (lit "OK") [])
          (Sample.load_as Sample.two_headings) Sample.URL_href
          (lit "http://example.com/") []
        = (fulfilled (Success (lit "http://example.com/")
                        [[(lit "title", title);
                          (lit "source", lit "Generic H1 scrape")]]),
           [] ++ [lit "http://example.com/"])) /\
       (title = [] ->
        scrapeUrl (Sample.net_status 200 (lit "OK") [])
          (Sample.load_as Sample.two_headings) Sample.URL_href
          (lit "http://example.com/") []
        = (fulfilled (Success (lit "http://example.com/") []),
           [] ++ [lit "http://example.com/"]))).
Proof.
  apply (generic_fallback (Sample.net_status 200 (lit "OK") [])
           (Sample.load_as Sample.two_headings) Sample.URL_href
           (lit "http://example.com/") [] Sample.two_headings).
  - reflexivity.
  - exists {| Fetch.status := 200; Fetch.statusText := lit "OK"; Fetch.text := Normal [] |}, [].
    repeat split.
Defined.

Lemma three_books_links_resolve :
  links_resolve Sample.URL_href Sample.books_url
    (select is_product_pod Sample.three_books).
Proof.
  intros element href Hin Hhref _. rewrite three_books_pods in Hin.
  repeat (apply elem_of_cons in Hin as [-> | Hin]);
    [| | | by apply elem_of_nil in Hin];
    injection Hhref as <-; (eexists; split; [reflexivity | discriminate]).
Defined.


Example three_books_outcome :
  scrapeUrl (Sample.net_status 200 (lit "OK") []) (Sample.load_as Sample.three_books)
    Sample.URL_href Sample.books_url []
  = (fulfilled (Success Sample.books_url
       [ book_record (lit "A Light in the Attic") (lit "51.77")
           (lit "http://books.toscrape.com/catalogue/a-light-in-the-attic_1000/index.html");
         book_record (lit "Tipping the Velvet") (lit "53.74")
           (lit "http://books.toscrape.com/catalogue/tipping-the-velvet_999/index.html");
         book_record (lit "Soumission") (lit "50.10")
           (lit "http://books.toscrape.com/catalogue/soumission_998/index.html") ]),
     [Sample.books_url]).
Proof. reflexivity. Qed.





Example blank_title_outcome :
  scrapeUrl (Sample.net_status 200 (lit "OK") [])
    (Sample.load_as (Sample.page [Sample.blank_title])) Sample.URL_href
    Sample.books_url []
  = (fulfilled (Success Sample.books_url
       [ book_record [] (lit "12.00")
           (lit "http://books.toscrape.com/catalogue/untitled_1/index.html") ]),
     [Sample.books_url]).
Proof. reflexivity. Qed.

(** A price of white space only passes the check as well. *)
Example blank_price_outcome :
  scrapeUrl (Sample.net_status 200 (lit "OK") [])
    (Sample.load_as
       (Sample.page
          [Sample.pod [(lit "href", lit "catalogue/free_3/index.html");
                       (lit "title", lit "Free")] ([10%N] ++ lit "  ")]))
    Sample.URL_href Sample.books_url []
  = (fulfilled (Success Sample.books_url
       [ book_record (lit "Free") []
           (lit "http://books.toscrape.com/catalogue/free_3/index.html") ]),
     [Sample.books_url]).
Proof. reflexivity. Qed.

(** A container without a price element is skipped, whatever its title. *)
Example pod_without_price_skipped :
  required_fields (pod_title Sample.blank_title_no_price)
    (pod_price Sample.blank_title_no_price)
    (Some (lit "http://books.toscrape.com/catalogue/untitled_2/index.html")) = false /\
  product_pod Sample.URL_href Sample.books_url [] Sample.blank_title_no_price
  = Normal [].
Proof. split; reflexivity. Qed.

(** The container itself may carry the class [product_price]: the price is
    then read from any [.price_color] below it, and the record is pushed. *)
Example priced_article_outcome :
  pod_price Sample.priced_article = lit "7" /\
  scrapeUrl (Sample.net_status 200 (lit "OK") [])
    (Sample.load_as (Sample.page [Sample.priced_article])) Sample.URL_href
    Sample.books_url []
  = (fulfilled (Success Sample.books_url
       [ book_record (lit "Seven") (lit "7")
           (lit "http://books.toscrape.com/catalogue/seven_7/index.html") ]),
     [Sample.books_url]).
Proof. split; reflexivity. Qed.

(** An element above the container does not count as the [.product_price]
    ancestor, and neither does a [.price_color] that is not below one. *)
Example price_outside_scope :
  select is_product_pod
    [Element (lit "div") [(lit "class", lit "product_price")]
       [Sample.pod_without_price [(lit "title", lit "T")];
        Element (lit "p") [(lit "class", lit "price_color")] [TextNode (lit "1")]]]
  = [Sample.pod_without_price [(lit "title", lit "T")]] /\
  pod_price
    (Element (lit "article") [(lit "class", lit "product_pod")]
       [Element (lit "p") [(lit "class", lit "price_color")] [TextNode (lit "2")]])
  = [].
Proof. split; reflexivity. Qed.

(** C8, as stated, fails on a cache that holds the empty string: the text
    cannot be parsed, the initial message is shown, and the entry stays. *)
Lemma empty_cache_not_cleared :
  Frontend.localStorage Sample.empty_cache !! Frontend.storageKey = Some ([] : jsstring) /\
  Sample.JSON_reject []
  = Throw {| name := lit "SyntaxError"; message := lit "Unexpected end of JSON input" |} /\
  Frontend.loadAndDisplayStoredResults unit Sample.JSON_reject Sample.display_nothing
    Sample.empty_cache
  = (Normal tt, {| Frontend.resultsArea := Frontend.initial_message;
                   Frontend.localStorage := Frontend.localStorage Sample.empty_cache |}).
Proof.
  assert (H : Frontend.localStorage Sample.empty_cache !! Frontend.storageKey
              = Some ([] : jsstring)) by apply lookup_singleton_eq.
  split_and!; [done | done |].
  apply load_stored_falsy. by rewrite H.
Qed.

(** A cache that holds broken text is removed. *)
Example broken_cache_cleared :
  Frontend.loadAndDisplayStoredResults unit Sample.JSON_reject Sample.display_nothing
    Sample.broken_cache
  = (Normal tt, {| Frontend.resultsArea := Frontend.corrupted_message;
                   Frontend.localStorage := ∅ |}).
Proof.
  rewrite (load_stored_rejected unit Sample.JSON_reject Sample.display_nothing
             Sample.broken_cache (lit "{oops")
             {| name := lit "SyntaxError"; message := lit "Unexpected end of JSON input" |});
    [| apply lookup_singleton_eq | discriminate | reflexivity].
  unfold Sample.broken_cache. cbn [Frontend.localStorage].
  by rewrite delete_singleton_eq.
Qed.

(** ** More on the scraper *)


Section PromiseMore.
Context {A : Type}.
Implicit Types (ps : list (Settled A)) (values : list (option (Settled A))).

(** A slot whose promise has not settled keeps what it held. *)
Lemma foldl_settle_slot_untouched ps order i : forall values,
  i ∉ order -> foldl (settle_slot ps) values order !! i = values !! i.
Proof.
  induction order as [|j order IH]; intros values Hi; simpl; [done |].
  apply not_elem_of_cons in Hi as [Hne Hi]. rewrite IH by done.
  unfold settle_slot. destruct (ps !! j); [|done].
  by apply list_lookup_insert_ne.
Qed.

(** [allSettled] resolves only when every promise has settled, and then
    with the results in the order of the promises. *)
Lemma allSettled_Some ps order results :
  allSettled ps order = Some results <->
  results = ps /\ forall i, i < length ps -> i ∈ order.
Proof.
  split.
  - intros Hsome.
    assert (Hall : forall i, i < length ps -> i ∈ order).
    { intros i Hi. destruct (decide (i ∈ order)) as [|Hnot]; [done | exfalso].
      unfold allSettled in Hsome.
      assert (Hnone : foldl (settle_slot ps) (replicate (length ps) None) order !! i
                      = Some None).
      { rewrite foldl_settle_slot_untouched by done. by apply lookup_replicate_2. }
      assert (Hs : is_Some (mapM id (foldl (settle_slot ps)
                                        (replicate (length ps) None) order)))
        by (by rewrite Hsome).
      apply mapM_is_Some in Hs. rewrite Forall_lookup in Hs.
      specialize (Hs i None Hnone). by destruct Hs. }
    split; [|done]. rewrite (allSettled_complete ps order Hall) in Hsome. congruence.
  - intros [-> Hall]. by apply allSettled_complete.
Qed.

End PromiseMore.

Section MoreScraperFacts.
Import Cheerio Server Extraction.

Variable net : nat -> Fetch.Exchange.
Variable load : jsstring -> Completion Document.
Variable URL_href : jsstring -> jsstring -> Completion jsstring.

Local Abbreviation scrapeUrl := (Server.scrapeUrl net load URL_href).
Local Abbreviation scrapeUrl_try := (Server.scrapeUrl_try net load URL_href).
Local Abbreviation extract_records := (Server.extract_records URL_href).
Local Abbreviation scrape_books := (Server.scrape_books URL_href).
Local Abbreviation product_pod := (Server.product_pod URL_href).
Local Abbreviation fetched := (Server.fetched load).
Local Abbreviation post_scrape := (Server.post_scrape net load URL_href).
Local Abbreviation from_container := (Extraction.from_container URL_href).

(** The callback pushes nothing, or the record of its container. *)
Lemma product_pod_inv url records element res :
  product_pod url records element = Normal res ->
  res = records \/ exists r, res = records ++ [r] /\ from_container url element r.
Proof.
  unfold Server.product_pod, required_fields.
  destruct (pod_relativeLink element) as [href|] eqn:Hh; simpl.
  - destruct (truthy href) eqn:Hhref; simpl.
    + destruct (URL_href href url) as [link|e] eqn:Hl; simpl; [|done].
      destruct (pod_title element) as [title|] eqn:Ht; simpl; [|intros [= <-]; by left].
      destruct (truthy title) eqn:Htitle; simpl; [|intros [= <-]; by left].
      destruct (truthy (pod_price element)) eqn:Hp; simpl; [|intros [= <-]; by left].
      destruct (truthy link) eqn:Hlink; simpl; intros [= <-]; [|by left].
      right. eexists. split; [done |].
      exists title, href, link. rewrite Ht.
      split_and!; try done; by apply truthy_true.
    + rewrite andb_false_r. intros [= <-]. by left.
  - rewrite andb_false_r. intros [= <-]. by left.
Qed.

Lemma each_product_pod_inv url pods : forall records res,
  each (product_pod url) pods records = Normal res ->
  exists kept recs,
    res = records ++ recs /\ kept `sublist_of` pods /\
    Forall2 (from_container url) kept recs.
Proof.
  induction pods as [|element pods IH]; intros records res; simpl.
  - intros [= <-]. exists [], []. by rewrite app_nil_r.
  - destruct (product_pod url records element) as [res1|e] eqn:Hpod; simpl; [|done].
    intros (kept & recs & -> & Hsub & Hall)%IH.
    destruct (product_pod_inv _ _ _ _ Hpod) as [-> | (r & -> & Hr)].
    + exists kept, recs. split_and!; [done | by apply sublist_cons | done].
    + exists (element :: kept), (r :: recs).
      split_and!; [by rewrite <- app_assoc | by apply sublist_skip | by constructor].
Qed.

(** A [Success] comes from a page that was fetched and from an extraction
    that did not throw. *)
Lemma scrapeUrl_Success_inv url log u recs :
  (scrapeUrl url log).1 = fulfilled (Success u recs) ->
  u = url /\
  exists doc, fetched (net (length log)) doc /\ extract_records url doc = Normal recs.
Proof.
  intros Hrun.
  destruct (scrapeUrl_try url log).1 as [o|e] eqn:Htry.
  - rewrite (scrapeUrl_run net load URL_href url log (Normal o) Htry) in Hrun.
    simpl in Hrun. injection Hrun as ->.
    rewrite scrapeUrl_try_run in Htry. simpl in Htry. revert Htry. unfold_monad.
    destruct (Fetch.settle _) as [r|] eqn:Hr; [|done].
    destruct (Fetch.ok r) eqn:Hok; simpl; [|done].
    destruct (Fetch.text r) as [html|] eqn:Ht; [|done].
    destruct (load html) as [doc|] eqn:Hl; [|done].
    destruct (Server.extract_records _ _ _) as [recs'|] eqn:Hx; [|done].
    intros [= -> ->]. split; [done |]. exists doc. split; [|done].
    by exists r, html.
  - rewrite (scrapeUrl_run net load URL_href url log (Throw e) Htry) in Hrun.
    done.
Qed.

(** What [scrapeUrl] resolves with is a [Success] exactly when the page was
    fetched with a status in 200-299, read and parsed, and the extraction
    did not throw; its records are then the extracted ones. *)
Theorem scrapeUrl_Success_iff url log u recs :
  (scrapeUrl url log).1 = fulfilled (Success u recs) <->
  u = url /\
  exists doc, fetched (net (length log)) doc /\ extract_records url doc = Normal recs.
Proof.
  split; [apply scrapeUrl_Success_inv |].
  intros [-> (doc & Hdoc & Hx)].
  rewrite (scrapeUrl_run net load URL_href url log (Normal (Success url recs))); [done |].
  rewrite (scrapeUrl_fetched net load URL_href url log doc Hdoc).
  by rewrite Hx.
Qed.

(** Every record of a successful scrape of a books URL is the record of a
    product container of the page that has all three fields and whose link
    resolves; the records follow the order of their containers, at most one
    per container. *)
Theorem books_records_sound url log doc u recs :
  includes url (lit "books.toscrape.com") = true ->
  fetched (net (length log)) doc ->
  (scrapeUrl url log).1 = fulfilled (Success u recs) ->
  exists kept,
    kept `sublist_of` select is_product_pod doc /\
    Forall2 (from_container url) kept recs /\
    length recs <= length (select is_product_pod doc).
Proof.
  intros Hurl Hdoc Hrun.
  assert (Hx : scrape_books url doc = Normal recs).
  { rewrite (scrapeUrl_run net load URL_href url log _ eq_refl) in Hrun.
    rewrite (scrapeUrl_fetched net load URL_href url log doc Hdoc) in Hrun.
    unfold Server.extract_records in Hrun. rewrite Hurl in Hrun.
    destruct (Server.scrape_books _ _ _); simpl in Hrun; congruence. }
  apply each_product_pod_inv in Hx as (kept & recs' & -> & Hsub & Hall).
  exists kept. split_and!; [done | done |].
  simpl. rewrite <- (Forall2_length _ _ _ Hall). by apply sublist_length.
Qed.

(** Every title and every price that a successful scrape reports is
    trimmed: [trim] leaves it as it is, so it neither starts nor ends with
    white space. *)
Theorem record_fields_trimmed url log doc u recs r v :
  fetched (net (length log)) doc ->
  (scrapeUrl url log).1 = fulfilled (Success u recs) ->
  r ∈ recs ->
  field (lit "title") r = Some v \/ field (lit "price") r = Some v ->
  trim v = v /\
  (forall c, head v = Some c \/ last v = Some c -> is_white_space c = false).
Proof.
  intros Hdoc Hrun Hr Hfield.
  assert (Hfix : trim v = v); [|split; [done | intros c; by apply trim_fixed_ends]].
  apply scrapeUrl_Success_inv in Hrun as [-> (doc' & Hdoc' & Hx)].
  assert (doc' = doc) as ->.
  { destruct Hdoc as (r1 & h1 & Hr1 & _ & Ht1 & Hl1).
    destruct Hdoc' as (r2 & h2 & Hr2 & _ & Ht2 & Hl2). congruence. }
  unfold Server.extract_records in Hx.
  destruct (includes url _).
  - apply each_product_pod_inv in Hx as (kept & recs' & -> & _ & Hall).
    simpl in Hr. apply list_elem_of_lookup in Hr as [i Hi].
    destruct (Forall2_lookup_r _ _ _ _ _ Hall Hi)
      as (element & _ & (t & h & l & _ & _ & _ & _ & _ & _ & _ & ->)).
    destruct Hfield as [[= <-] | [= <-]]; apply trim_idemp.
  - injection Hx as <-. unfold scrape_generic in Hr.
    destruct (truthy (genericTitle doc)); [|by apply elem_of_nil in Hr].
    apply list_elem_of_singleton in Hr as ->.
    destruct Hfield as [[= <-] | Hprice]; [apply trim_idemp | done].
Qed.

(** The outcome of a scrape depends on the network through the fate of its
    own request only. *)
Lemma scrapeUrl_own_request (net' : nat -> Fetch.Exchange) url log log' :
  net (length log) = net' (length log') ->
  (scrapeUrl url log).1 = (Server.scrapeUrl net' load URL_href url log').1.
Proof.
  intros Hnet.
  rewrite (scrapeUrl_run net load URL_href url log _ eq_refl).
  rewrite (scrapeUrl_run net' load URL_href url log' _ eq_refl).
  rewrite !scrapeUrl_try_run. simpl. by rewrite Hnet.
Qed.

(** The promise at index [i] of the batch is that of a scrape of the URL at
    index [i] that issues request number [i] of the batch. *)
Lemma map_calls_scrapeUrl_lookup urls : forall log i url,
  urls !! i = Some url ->
  (map_calls scrapeUrl urls log).1 !! i
  = Some (scrapeUrl url (log ++ take i urls)).1.
Proof.
  induction urls as [|u urls IH]; intros log i url Hi; [done |].
  simpl. destruct (scrapeUrl_fulfils net load URL_href u log) as (o & Ho & _).
  rewrite Ho.
  destruct (map_calls scrapeUrl urls (log ++ [u])) as [ps l] eqn:Hrest.
  destruct i as [|i]; simpl in *.
  - injection Hi as ->. by rewrite app_nil_r, Ho.
  - specialize (IH (log ++ [u]) i url Hi). rewrite Hrest in IH. simpl in IH.
    by rewrite IH, <- app_assoc.
Qed.

(** When the handler answers a non-empty array, its answer is the list of
    the outcomes of the scrapes, in the order of the URLs. *)
Lemma post_scrape_answer order urls log resp log' :
  urls <> [] ->
  post_scrape order (VArray urls) log = (Some resp, log') ->
  code resp = 200 /\
  payload resp = OutcomesJson
                   (map to_response (map_calls scrapeUrl urls log).1) /\
  (forall i, i < length urls -> i ∈ order).
Proof.
  intros Hne. unfold Server.post_scrape.
  assert (negb (truthy_value (VArray urls)) || negb (isArray (VArray urls))
          || (length (elements (VArray urls)) =? 0) = false) as ->.
  { by destruct urls. }
  cbn [elements].
  destruct (map_calls_scrapeUrl net load URL_href urls log) as (outcomes & Hcalls & Hurls).
  rewrite Hcalls. cbn [fst].
  destruct (allSettled (fulfilled <$> outcomes) order) as [results|] eqn:Hall;
    simpl; [|done].
  apply allSettled_Some in Hall as [-> Hall]. intros [= <- <-].
  split_and!; [done | done |].
  intros i Hi. apply Hall.
  by rewrite length_fmap, <- (length_fmap outcome_url), Hurls.
Qed.

End MoreScraperFacts.

Section Isolation.
Import Cheerio Server.

Variables net net' : nat -> Fetch.Exchange.
Variable load : jsstring -> Completion Document.
Variable URL_href : jsstring -> jsstring -> Completion jsstring.

(** Isolation of the scrapes of a batch: the outcome reported at an index
    depends only on the URL at that index and on the fate of its own
    request, not on the other URLs of the batch, on what happens to their
    requests, or on the order in which the scrapes settle. *)
Theorem batch_isolation order order' urls urls' log log' rd rd' l l' i j url :
  Server.post_scrape net load URL_href order (VArray urls) log
  = (Some {| code := 200; payload := OutcomesJson rd |}, l) ->
  Server.post_scrape net' load URL_href order' (VArray urls') log'
  = (Some {| code := 200; payload := OutcomesJson rd' |}, l') ->
  urls !! i = Some url -> urls' !! j = Some url ->
  net (length log + i) = net' (length log' + j) ->
  rd !! i = rd' !! j /\ is_Some (rd !! i).
Proof.
  intros Hrun Hrun' Hi Hj Hnet.
  assert (Hne : urls <> []) by (intros ->; done).
  assert (Hne' : urls' <> []) by (intros ->; done).
  destruct (post_scrape_answer net load URL_href order urls log _ l Hne Hrun)
    as (_ & Hrd & _).
  destruct (post_scrape_answer net' load URL_href order' urls' log' _ l' Hne' Hrun')
    as (_ & Hrd' & _).
  simpl in Hrd, Hrd'. injection Hrd as ->. injection Hrd' as ->.
  change (map to_response) with (fmap (M:=list) to_response).
  rewrite !list_lookup_fmap.
  rewrite (map_calls_scrapeUrl_lookup net load URL_href urls log i url Hi).
  rewrite (map_calls_scrapeUrl_lookup net' load URL_href urls' log' j url Hj).
  simpl.
  rewrite (scrapeUrl_own_request net load URL_href net' url
             (log ++ take i urls) (log' ++ take j urls')).
  - split; [done | by eexists].
  - rewrite !length_app, !length_take.
    apply lookup_lt_Some in Hi, Hj.
    by rewrite !Nat.min_l by lia.
Qed.

End Isolation.

(** ** The scrape button *)

Section IntakeFacts.
Import Client.

Lemma split_lines_nonempty (s : jsstring) : split_lines s <> [].
Proof.
  destruct s as [|c s]; simpl; [done |].
  destruct (c =? 10)%N; [done |]. by destruct (split_lines s).
Qed.

(** No line holds a line feed. *)
Lemma split_lines_no_newline (s line : jsstring) :
  line ∈ split_lines s -> 10%N ∉ line.
Proof.
  revert line. induction s as [|c s IH]; intros line; simpl.
  - intros ->%list_elem_of_singleton. apply not_elem_of_nil.
  - destruct (c =? 10)%N eqn:Hc.
    + intros [-> | Hin]%elem_of_cons; [apply not_elem_of_nil | by apply IH].
    + destruct (split_lines s) as [|l ls] eqn:Hs.
      * intros ->%list_elem_of_singleton.
        apply not_elem_of_cons. split; [|apply not_elem_of_nil].
        intros <-. by rewrite N.eqb_refl in Hc.
      * intros [-> | Hin]%elem_of_cons.
        -- apply not_elem_of_cons. split.
           ++ intros <-. by rewrite N.eqb_refl in Hc.
           ++ apply IH. apply list_elem_of_here.
        -- apply IH. by apply list_elem_of_further.
Qed.

(** The lines joined by line feeds are the text. *)
Lemma join_split_lines (s : jsstring) : join_lines (split_lines s) = s.
Proof.
  induction s as [|c s IH]; simpl; [done |].
  pose proof (split_lines_nonempty s) as Hne.
  destruct (c =? 10)%N eqn:Hc.
  - apply N.eqb_eq in Hc as ->.
    destruct (split_lines s) as [|l ls]; [done |]. by rewrite <- IH.
  - destruct (split_lines s) as [|l ls]; [done |].
    rewrite <- IH. by destruct ls.
Qed.

Lemma trimStart_suffix (s : jsstring) : exists pre, s = pre ++ trimStart s.
Proof.
  induction s as [|c s [pre IH]]; simpl; [by exists [] |].
  destruct (is_white_space c); [|by exists []].
  exists (c :: pre). simpl. by f_equal.
Qed.

(** Trimming adds no character. *)
Lemma trim_elem_of (s : jsstring) c : c ∈ trim s -> c ∈ s.
Proof.
  unfold trim, trimEnd. intros Hin.
  apply list_elem_of_In, in_rev, list_elem_of_In in Hin.
  destruct (trimStart_suffix (rev (trimStart s))) as [pre Hpre].
  assert (Hc : c ∈ rev (trimStart s)).
  { rewrite Hpre. apply elem_of_app. by right. }
  apply list_elem_of_In, in_rev, list_elem_of_In in Hc.
  destruct (trimStart_suffix s) as [pre' Hpre'].
  rewrite Hpre'. apply elem_of_app. by right.
Qed.


End IntakeFacts.

Section ClickFacts.
Import Frontend Client.

Variable Value : Type.
Variable post : nat -> list jsstring -> Completion (Reply Value).
Variable error_text : Value -> Completion jsstring.
Variable JSON_stringify : Value -> jsstring.
Variable over_quota : jsstring -> bool.
Variable JSON_parse : jsstring -> Completion Value.
Variable displayResults : Value -> ST jsstring unit.

Local Abbreviation on_click :=
  (Client.on_click Value post error_text JSON_stringify over_quota displayResults).
Local Abbreviation on_click_try :=
  (Client.on_click_try Value post error_text JSON_stringify over_quota displayResults).
Local Abbreviation failed_request := (Client.failed_request Value post error_text).
Local Abbreviation load_stored :=
  (loadAndDisplayStoredResults Value JSON_parse displayResults).

Ltac unfold_click :=
  unfold Client.on_click, Client.on_click_try, try_finally, on_page, fetch_scrape,
    set_loading_hidden, set_button_disabled, setItem,
    insertAdjacentHTML_beforeend, set_innerHTML, call_displayResults;
  unfold_monad; cbn [page urls_value loading_hidden button_disabled posted
                     resultsArea localStorage].

Lemma read_urls_length (value : jsstring) :
  read_urls value <> [] -> (length (read_urls value) =? 0) = false.
Proof. by destruct (read_urls value). Qed.

(** What a click posts: nothing without a valid URL, else the URLs read
    from the box, once. *)
Lemma on_click_posted ui :
  posted (on_click ui).2
  = match read_urls (urls_value ui) with
    | [] => posted ui
    | urls => posted ui ++ [urls]
    end.
Proof.
  unfold_click.
  destruct (read_urls (urls_value ui)) as [|u us] eqn:Hread; [done |].
  cbn [length Nat.eqb].
  destruct (post _ _) as [r|e]; cbn; [|done].
  destruct (ok r); cbn.
  - destruct (json r) as [results|e]; cbn; [|done].
    destruct (over_quota _); cbn;
      by destruct (displayResults results _) as [[[]|e] html].
  - destruct (json r) as [errorData|e]; cbn; [|done].
    by destruct (error_text errorData).
Qed.

(** A click posts nothing exactly when the box holds no valid URL; the
    handler then shows the validation message and does nothing else: the
    cache, the loading indicator and the button stay as they are. *)
Theorem on_click_nothing_to_send ui :
  (posted (on_click ui).2 = posted ui <-> read_urls (urls_value ui) = []) /\
  (read_urls (urls_value ui) = [] ->
   on_click ui =
   (Normal tt,
    {| page := {| resultsArea := validation_message;
                  localStorage := localStorage (page ui) |};
       urls_value := urls_value ui; loading_hidden := loading_hidden ui;
       button_disabled := button_disabled ui; posted := posted ui |})).
Proof.
  split.
  - rewrite on_click_posted.
    destruct (read_urls (urls_value ui)) as [|u us]; [done |].
    split; [|done]. intros H. apply (f_equal length) in H.
    rewrite length_app in H. simpl in H. lia.
  - intros H. unfold_click. by rewrite H.
Qed.

(** With a valid URL in the box the handler always returns, whatever the
    server answers and whatever storing and displaying do: it has posted
    the URLs read from the box once, the loading indicator is hidden again
    and the button is enabled again, the text of the box is unchanged, and
    no entry of the storage other than the cache has changed. *)
Theorem on_click_restores ui :
  read_urls (urls_value ui) <> [] ->
  exists p,
    on_click ui =
    (Normal tt,
     {| page := p; urls_value := urls_value ui; loading_hidden := true;
        button_disabled := false;
        posted := posted ui ++ [read_urls (urls_value ui)] |}) /\
    (forall k, k <> storageKey ->
               localStorage p !! k = localStorage (page ui) !! k).
Proof.
  intros Hne%read_urls_length. unfold_click. rewrite Hne.
  destruct (post _ _) as [r|e]; cbn.
  - destruct (ok r); cbn.
    + destruct (json r) as [results|e]; cbn.
      * destruct (over_quota _); cbn.
        -- destruct (displayResults results _) as [[[]|e] html]; cbn;
             eexists; split; done.
        -- destruct (displayResults results _) as [[[]|e] html]; cbn;
             (eexists; split; [done |]); intros k Hk; cbn;
             by rewrite lookup_insert_ne.
      * eexists; split; done.
    + destruct (json r) as [errorData|e]; cbn.
      * destruct (error_text errorData); cbn; eexists; split; done.
      * eexists; split; done.
  - eexists; split; done.
Qed.



(** After a scrape whose results were stored, the cache holds their JSON
    text; and if that text is not empty and parses back to the results,
    loading a page with this storage calls [displayResults] on them: when
    it returns, the page shows what it rendered and the cache is kept; when
    it throws, the page shows the message about corrupted results and the
    cache is removed. *)
Theorem saved_results_reload ui r results :
  read_urls (urls_value ui) <> [] ->
  post (length (posted ui)) (read_urls (urls_value ui)) = Normal r ->
  ok r = true ->
  json r = Normal results ->
  over_quota (JSON_stringify results) = false ->
  localStorage (page (on_click ui).2) !! storageKey
  = Some (JSON_stringify results) /\
  (forall p,
     localStorage p = localStorage (page (on_click ui).2) ->
     JSON_stringify results <> [] ->
     JSON_parse (JSON_stringify results) = Normal results ->
     load_stored p =
     match displayResults results (resultsArea p) with
     | (Normal _, html) =>
         (Normal tt, {| resultsArea := html; localStorage := localStorage p |})
     | (Throw _, _) =>
         (Normal tt, {| resultsArea := corrupted_message;
                        localStorage := delete storageKey (localStorage p) |})
     end).
Proof.
  intros Hne%read_urls_length Hp Hok Hj Hq.
  assert (Hsaved : localStorage (page (on_click ui).2) !! storageKey
                   = Some (JSON_stringify results)).
  { unfold_click. rewrite Hne, Hp. cbn. rewrite Hok, Hj. cbn. rewrite Hq. cbn.
    destruct (displayResults results _) as [[[]|e] html]; cbn;
      apply lookup_insert_eq. }
  split; [done |].
  intros p Hstore Htext%truthy_true Hparse.
  rewrite <- Hstore in Hsaved.
  unfold loadAndDisplayStoredResults, getItem, call_displayResults. unfold_monad.
  rewrite Hsaved. simpl. rewrite Htext, Hparse.
  by destruct (displayResults results (resultsArea p)) as [[[]|e] html].
Qed.

(** When the storage refuses the results, they are displayed all the same
    and the cache keeps what it held. *)
Theorem on_click_storage_full ui r results :
  read_urls (urls_value ui) <> [] ->
  post (length (posted ui)) (read_urls (urls_value ui)) = Normal r ->
  ok r = true ->
  json r = Normal results ->
  over_quota (JSON_stringify results) = true ->
  localStorage (page (on_click ui).2) = localStorage (page ui) /\
  (forall html, displayResults results storage_note = (Normal tt, html) ->
                resultsArea (page (on_click ui).2) = html).
Proof.
  intros Hne%read_urls_length Hp Hok Hj Hq.
  unfold_click. rewrite Hne, Hp. cbn. rewrite Hok, Hj. cbn. rewrite Hq. cbn.
  split.
  - by destruct (displayResults results _) as [[[]|e] html].
  - intros html ->. done.
Qed.

End ClickFacts.

Section LoaderMore.
Import Frontend.

Variable Value : Type.
Variable JSON_parse : jsstring -> Completion Value.
Variable displayResults : Value -> ST jsstring unit.

Local Abbreviation load_stored :=
  (loadAndDisplayStoredResults Value JSON_parse displayResults).

(** The loader changes no entry of the storage other than the cache, and it
    keeps a cache that parses and displays: the page then shows what
    [displayResults] renders for the parsed results. *)
Theorem load_keeps_cache page :
  (forall k, k <> storageKey ->
             localStorage (load_stored page).2 !! k = localStorage page !! k) /\
  (forall (text : jsstring) results html,
     localStorage page !! storageKey = Some text -> text <> [] ->
     JSON_parse text = Normal results ->
     displayResults results (resultsArea page) = (Normal tt, html) ->
     load_stored page =
     (Normal tt, {| resultsArea := html; localStorage := localStorage page |})).
Proof.
  split.
  - intros k Hk.
    unfold loadAndDisplayStoredResults, getItem, call_displayResults, set_innerHTML,
      removeItem. unfold_monad.
    destruct (truthy_opt _); [|done].
    destruct (JSON_parse _) as [results|e]; cbn.
    + destruct (displayResults results _) as [[[]|e] html]; cbn; [done |].
      by apply lookup_delete_ne.
    + by apply lookup_delete_ne.
  - intros text results html Hs Hne%truthy_true Hp Hd.
    unfold loadAndDisplayStoredResults, getItem, call_displayResults. unfold_monad.
    rewrite Hs. simpl. by rewrite Hne, Hp, Hd.
Qed.

End LoaderMore.

Section ClientServer.
Import Cheerio Server Frontend Client.

Variable Value : Type.
Variable post : nat -> list jsstring -> Completion (Reply Value).
Variable error_text : Value -> Completion jsstring.
Variable JSON_stringify : Value -> jsstring.
Variable over_quota : jsstring -> bool.
Variable displayResults : Value -> ST jsstring unit.
Variable net : nat -> Fetch.Exchange.
Variable load : jsstring -> Completion Document.
Variable URL_href : jsstring -> jsstring -> Completion jsstring.

Local Abbreviation on_click :=
  (Client.on_click Value post error_text JSON_stringify over_quota displayResults).
Local Abbreviation post_scrape := (Server.post_scrape net load URL_href).

(** What the handler answers to a non-empty array: one outcome per URL,
    each carrying its URL. *)
Lemma post_scrape_outcomes order urls log resp l :
  urls <> [] ->
  post_scrape order (VArray urls) log = (Some resp, l) ->
  code resp = 200 /\
  exists rd, payload resp = OutcomesJson rd /\ outcome_url <$> rd = urls.
Proof.
  intros Hne Hrun.
  destruct (post_scrape_answer net load URL_href order urls log resp l Hne Hrun)
    as (Hcode & Hpay & _).
  split; [done |].
  destruct (map_calls_scrapeUrl net load URL_href urls log) as (outcomes & Hcalls & Hurls).
  exists outcomes. rewrite Hpay, Hcalls. simpl.
  by rewrite to_response_fulfilled.
Qed.

(** The front end never meets the server's rejection of an empty or
    missing list: a list that a click posts is the non-empty list of the
    URLs read from the box, and whenever the server answers such a list it
    answers with status 200 and one outcome per URL, in order. *)
Theorem posted_urls_accepted ui urls order log resp l :
  posted (on_click ui).2 = posted ui ++ [urls] ->
  post_scrape order (VArray urls) log = (Some resp, l) ->
  urls = read_urls (urls_value ui) /\ urls <> [] /\
  code resp = 200 /\
  exists rd, payload resp = OutcomesJson rd /\ outcome_url <$> rd = urls.
Proof.
  intros Hposted Hrun.
  assert (Hurls : urls = read_urls (urls_value ui) /\ urls <> []).
  { rewrite on_click_posted in Hposted.
    destruct (read_urls (urls_value ui)) as [|u us] eqn:Hread.
    - apply (f_equal length) in Hposted.
      rewrite length_app in Hposted. simpl in Hposted. lia.
    - apply app_inv_head in Hposted. by injection Hposted as <-. }
  destruct Hurls as [Hread Hne]. split_and!; [done | done | |];
    by destruct (post_scrape_outcomes order urls log resp l Hne Hrun).
Qed.

(** What the page shows for the answer to a batch: one block per URL of the
    batch, in the order of the URLs, each headed by its URL. *)
Theorem displayed_batch order urls log rd l :
  urls <> [] ->
  post_scrape order (VArray urls) log
  = (Some {| code := 200; payload := OutcomesJson rd |}, l) ->
  exists contents,
    Client.displayResults rd = Items contents /\
    length contents = length urls /\
    (forall i url, urls !! i = Some url -> url <> [] ->
       exists rest, contents !! i = Some (lit "<h3>" ++ url ++ lit "</h3>" ++ rest)).
Proof.
  intros Hne Hrun.
  destruct (post_scrape_outcomes order urls log _ l Hne Hrun) as (_ & rd' & [= <-] & Hurls).
  exists (map result_content rd).
  assert (Hlen : length rd = length urls) by by rewrite <- Hurls, length_fmap.
  split_and!.
  - unfold Client.displayResults. destruct rd; [|done]. by destruct urls.
  - by rewrite length_map.
  - intros i url Hi Hurl%truthy_true.
    rewrite <- Hurls, list_lookup_fmap in Hi.
    destruct (rd !! i) as [o|] eqn:Ho; [|done]. injection Hi as Hi.
    change (map result_content rd) with (result_content <$> rd).
    rewrite list_lookup_fmap, Ho. simpl.
    unfold result_content, or_else. rewrite Hi, Hurl.
    by eexists.
Qed.

End ClientServer.

(** ** The display of the results *)

Section DisplayFacts.
Import Frontend Client.

Lemma count_char_app c (a b : jsstring) :
  count_char c (a ++ b) = count_char c a + count_char c b.
Proof. unfold count_char. by rewrite List.filter_app, length_app. Qed.

Lemma count_char_cons c x (s : jsstring) :
  count_char c (x :: s) = (if (x =? c)%N then 1 else 0) + count_char c s.
Proof. unfold count_char. simpl. by destruct (x =? c)%N. Qed.

(** The occurrences of a character after a replacement: those that were
    there, unless it is the replaced one, and those of the replacement. *)
Lemma count_char_replace_all c d (r s : jsstring) :
  count_char c (replace_all d r s)
  = (if (d =? c)%N then 0 else count_char c s) + count_char d s * count_char c r.
Proof.
  induction s as [|x s IH]; simpl.
  - by destruct (d =? c)%N.
  - rewrite count_char_app, IH, !count_char_cons.
    destruct (x =? d)%N eqn:Hxd.
    + apply N.eqb_eq in Hxd as ->. destruct (d =? c)%N; lia.
    + rewrite count_char_cons. change (count_char c []) with 0.
      destruct (d =? c)%N eqn:Hdc.
      * apply N.eqb_eq in Hdc as ->. rewrite Hxd. lia.
      * destruct (x =? c)%N; lia.
Qed.

Lemma replace_all_absent c (r s : jsstring) :
  count_char c s = 0 -> replace_all c r s = s.
Proof.
  induction s as [|x s IH]; [done |].
  rewrite count_char_cons. simpl. destruct (x =? c)%N; [done |].
  simpl. intros H. by rewrite IH.
Qed.

Lemma count_char_sanitize (s : jsstring) :
  count_char 60 (sanitize s) = 0 /\ count_char 62 (sanitize s) = 0.
Proof.
  unfold sanitize. split.
  - rewrite !count_char_replace_all.
    change (count_char 60 (lit "&gt;")) with 0.
    change (count_char 60 (lit "&lt;")) with 0. simpl. lia.
  - rewrite count_char_replace_all.
    change (count_char 62 (lit "&gt;")) with 0. simpl. lia.
Qed.

(** The sanitised form of a text holds neither [<] nor [>], and a text
    without them is left as it is. *)
Theorem sanitize_no_angle (s : jsstring) :
  count_char 60 (sanitize s) = 0 /\ count_char 62 (sanitize s) = 0 /\
  (count_char 60 s = 0 -> count_char 62 s = 0 -> sanitize s = s).
Proof.
  destruct (count_char_sanitize s) as [H60 H62]. split_and!; [done | done |].
  intros K60 K62. unfold sanitize. rewrite (replace_all_absent 60 _ s K60).
  by apply replace_all_absent.
Qed.

(** Evaluate the counts of the literal pieces of a markup. *)
Ltac count_literals :=
  repeat match goal with
    | |- context [count_char ?c (lit ?s)] =>
        let v := eval vm_compute in (count_char c (lit s)) in
        change (count_char c (lit s)) with v
    | |- context [count_char ?c dq] =>
        let v := eval vm_compute in (count_char c dq) in
        change (count_char c dq) with v
    end.

(** The block of a failed result holds the angle brackets of its fixed
    markup and those of the URL, which is inserted as it is; the error
    text adds none. *)
Theorem failure_content_brackets url error :
  count_char 60 (result_content (Failure url error))
  = 8 + count_char 60 (or_else url (lit "Unknown URL")) /\
  count_char 62 (result_content (Failure url error))
  = 8 + count_char 62 (or_else url (lit "Unknown URL")).
Proof.
  destruct (count_char_sanitize (or_else error (lit "Unknown error"))) as (H60 & H62).
  unfold result_content. cbn [outcome_url outcome_status].
  change (or_else (lit "failed") (lit "unknown")) with (lit "failed").
  split; rewrite !count_char_app; [rewrite H60 | rewrite H62]; count_literals; lia.
Qed.

Lemma count_char_record_field c entry :
  (c = 60 \/ c = 62)%N -> count_char c (record_field entry) = 3.
Proof.
  destruct (count_char_sanitize entry.1) as (K60 & K62).
  destruct (count_char_sanitize entry.2) as (V60 & V62).
  unfold record_field. intros [-> | ->]; rewrite !count_char_app;
    [rewrite K60, V60 | rewrite K62, V62]; by count_literals.
Qed.

Lemma count_char_record_item c (record : Record_) :
  (c = 60 \/ c = 62)%N -> count_char c (record_item record) = 2 + 3 * length record.
Proof.
  intros Hc. unfold record_item. rewrite !count_char_app.
  assert (count_char c (flat_map record_field record) = 3 * length record) as ->.
  { induction record as [|entry record IH]; [done |].
    cbn [flat_map length]. rewrite count_char_app, IH, count_char_record_field by done.
    lia. }
  destruct Hc as [-> | ->]; count_literals; lia.
Qed.

Lemma count_char_record_items c (records records' : list Record_) :
  (c = 60 \/ c = 62)%N ->
  Forall2 (fun r r' => length r = length r') records records' ->
  count_char c (flat_map record_item records)
  = count_char c (flat_map record_item records').
Proof.
  intros Hc. induction 1 as [|r r' rs rs' Hlen _ IH]; [done |].
  cbn [flat_map]. by rewrite !count_char_app, !count_char_record_item, Hlen, IH.
Qed.

Lemma count_char_records_markup c (records records' : list Record_) :
  (c = 60 \/ c = 62)%N ->
  Forall2 (fun r r' => length r = length r') records records' ->
  count_char c (records_markup records) = count_char c (records_markup records').
Proof.
  intros Hc Hshape. pose proof (Forall2_length _ _ _ Hshape) as Hlen.
  unfold records_markup. unfold Record_ in *. rewrite <- Hlen.
  destruct (0 <? length records); [|done].
  rewrite !count_char_app. do 5 f_equal.
  apply count_char_record_items; [done | by apply Forall2_take].
Qed.

(** The angle brackets in the block of a successful result depend on the
    URL, on the number of records and on the number of fields of each
    record, not on the names or the values of the fields. *)
Theorem success_content_brackets c url (records records' : list Record_) :
  (c = 60 \/ c = 62)%N ->
  Forall2 (fun r r' => length r = length r') records records' ->
  count_char c (result_content (Success url records))
  = count_char c (result_content (Success url records')).
Proof.
  intros Hc Hshape.
  unfold result_content. cbn [outcome_url outcome_status].
  rewrite !count_char_app.
  by rewrite (count_char_records_markup c records records').
Qed.

End DisplayFacts.

(** ** Waiting for the batch *)

Section Waiting.
Import Cheerio Server.

Variable net : nat -> Fetch.Exchange.
Variable load : jsstring -> Completion Document.
Variable URL_href : jsstring -> jsstring -> Completion jsstring.

Local Abbreviation post_scrape := (Server.post_scrape net load URL_href).

(** The handler starts the scrape of every URL of the array at once, one
    request per URL in the order of the array, and answers exactly when
    every one of these scrapes has settled, then with status 200: no
    scrape that settles, whatever its outcome, makes it answer early. *)
Theorem post_scrape_waits order urls log :
  urls <> [] ->
  (post_scrape order (VArray urls) log).2 = log ++ urls /\
  (is_Some (post_scrape order (VArray urls) log).1 <->
   forall i, i < length urls -> i ∈ order) /\
  (forall resp, (post_scrape order (VArray urls) log).1 = Some resp ->
                code resp = 200).
Proof.
  intros Hne.
  destruct (map_calls_scrapeUrl net load URL_href urls log) as (outcomes & Hcalls & Hurls).
  assert (Hlen : length (fulfilled <$> outcomes) = length urls)
    by by rewrite length_fmap, <- (length_fmap outcome_url), Hurls.
  assert (Hrun : post_scrape order (VArray urls) log
                 = (results ← allSettled (fulfilled <$> outcomes) order;
                    Some {| code := 200;
                            payload := OutcomesJson (map to_response results) |},
                    log ++ urls)).
  { unfold Server.post_scrape.
    assert (negb (truthy_value (VArray urls)) || negb (isArray (VArray urls))
            || (length (elements (VArray urls)) =? 0) = false) as ->.
    { by destruct urls. }
    cbn [elements]. by rewrite Hcalls. }
  rewrite Hrun. cbn [fst snd]. split_and!; [done | |].
  - split.
    + intros [resp Hresp] i Hi.
      destruct (allSettled _ order) as [results|] eqn:Hall; [|done].
      apply allSettled_Some in Hall as [_ Hall]. apply Hall. by rewrite Hlen.
    + intros Hall. rewrite allSettled_complete; [by eexists |].
      intros i Hi. apply Hall. by rewrite <- Hlen.
  - intros resp. destruct (allSettled _ order); simpl; [|done]. by intros [= <-].
Qed.

End Waiting.

(** ** More properties on the samples *)

Example read_urls_sample : Client.read_urls Demo.box_text = Demo.box_urls.
Proof. reflexivity. Qed.

Example bare_scheme_is_read :
  Client.read_urls (lit "http://") = [lit "http://"]
  /\ Client.read_urls (lit "example.com") = [].
Proof. split; reflexivity. Qed.

Lemma books_records_sound_sample :
  exists kept,
    kept `sublist_of` select is_product_pod Sample.three_books /\
    Forall2 (Extraction.from_container Sample.URL_href Sample.books_url) kept
      [ book_record (lit "A Light in the Attic") (lit "51.77")
          (lit "http://books.toscrape.com/catalogue/a-light-in-the-attic_1000/index.html");
        book_record (lit "Tipping the Velvet") (lit "53.74")
          (lit "http://books.toscrape.com/catalogue/tipping-the-velvet_999/index.html");
        book_record (lit "Soumission") (lit "50.10")
          (lit "http://books.toscrape.com/catalogue/soumission_998/index.html") ] /\
    3 <= length (select is_product_pod Sample.three_books).
Proof.
  apply (books_records_sound (Sample.net_status 200 (lit "OK") [])
           (Sample.load_as Sample.three_books) Sample.URL_href Sample.books_url []
           Sample.three_books Sample.books_url).
  - reflexivity.
  - exists {| Fetch.status := 200; Fetch.statusText := lit "OK"; Fetch.text := Normal [] |}, [].
    repeat split.
  - reflexivity.
Defined.

Lemma record_fields_trimmed_sample :
  trim (lit "53.74") = lit "53.74" /\
  (forall c, head (lit "53.74") = Some c \/ last (lit "53.74") = Some c ->
             is_white_space c = false).
Proof.
  apply (record_fields_trimmed (Sample.net_status 200 (lit "OK") [])
           (Sample.load_as Sample.three_books) Sample.URL_href Sample.books_url []
           Sample.three_books Sample.books_url
           [ book_record (lit "A Light in the Attic") (lit "51.77")
               (lit "http://books.toscrape.com/catalogue/a-light-in-the-attic_1000/index.html");
             book_record (lit "Tipping the Velvet") (lit "53.74")
               (lit "http://books.toscrape.com/catalogue/tipping-the-velvet_999/index.html");
             book_record (lit "Soumission") (lit "50.10")
               (lit "http://books.toscrape.com/catalogue/soumission_998/index.html") ]
           (book_record (lit "Tipping the Velvet") (lit "53.74")
              (lit "http://books.toscrape.com/catalogue/tipping-the-velvet_999/index.html"))).
  - exists {| Fetch.status := 200; Fetch.statusText := lit "OK"; Fetch.text := Normal [] |}, [].
    repeat split.
  - reflexivity.
  - apply list_elem_of_further, list_elem_of_here.
  - right. reflexivity.
Defined.

(** The outcome of a page is the same first in one batch and second in
    another, when its request fares the same. *)
Lemma batch_isolation_sample :
  [ Success (lit "http://example.com/") [generic_record (lit "Example Domain")];
    Failure (lit "http://slow.example/") (lit "Request timed out") ] !! 0
  = [ Success (lit "http://other.example/") [generic_record (lit "Example Domain")];
      Success (lit "http://example.com/") [generic_record (lit "Example Domain")] ] !! 1
  /\ is_Some
       ([ Success (lit "http://example.com/") [generic_record (lit "Example Domain")];
          Failure (lit "http://slow.example/") (lit "Request timed out") ] !! 0).
Proof.
  apply (batch_isolation
           (Sample.net_first_only 200 (lit "OK") []) (Sample.net_status 200 (lit "OK") [])
           (Sample.load_as Sample.example_page) Sample.URL_href
           [1; 0] [0; 1]
           [lit "http://example.com/"; lit "http://slow.example/"]
           [lit "http://other.example/"; lit "http://example.com/"]
           [] []
           _ _
           [lit "http://example.com/"; lit "http://slow.example/"]
           [lit "http://other.example/"; lit "http://example.com/"]
           0 1 (lit "http://example.com/")); reflexivity.
Defined.

Lemma post_scrape_waits_sample :
  (post_scrape Sample.net_silent (Sample.load_as Sample.example_page) Sample.URL_href
     [1] (VArray [lit "http://a.example/"; lit "http://b.example/"]) []).2
  = [] ++ [lit "http://a.example/"; lit "http://b.example/"] /\
  (is_Some (post_scrape Sample.net_silent (Sample.load_as Sample.example_page)
              Sample.URL_href
              [1] (VArray [lit "http://a.example/"; lit "http://b.example/"]) []).1 <->
   forall i, i < 2 -> i ∈ [1]) /\
  (forall resp,
     (post_scrape Sample.net_silent (Sample.load_as Sample.example_page) Sample.URL_href
        [1] (VArray [lit "http://a.example/"; lit "http://b.example/"]) []).1
     = Some resp -> code resp = 200).
Proof.
  apply (post_scrape_waits Sample.net_silent (Sample.load_as Sample.example_page)
           Sample.URL_href [1] [lit "http://a.example/"; lit "http://b.example/"] []).
  discriminate.
Defined.

(** While the first scrape of a batch of two is pending, the handler has
    sent both requests and no answer. *)
Example pending_batch :
  post_scrape Sample.net_silent (Sample.load_as Sample.example_page) Sample.URL_href
    [1] (VArray [lit "http://a.example/"; lit "http://b.example/"]) []
  = (None, [lit "http://a.example/"; lit "http://b.example/"]).
Proof. reflexivity. Qed.

Import Frontend Client.


Lemma on_click_nothing_to_send_sample :
  on_click (list Outcome) Demo.post_ok Demo.error_text Demo.stringify Demo.roomy
    Demo.display (Demo.fresh (lit "example.com"))
  = (Normal tt,
     {| page := {| resultsArea := validation_message; localStorage := ∅ |};
        urls_value := lit "example.com"; loading_hidden := true;
        button_disabled := false; posted := [] |}).
Proof.
  apply (proj2 (on_click_nothing_to_send (list Outcome) Demo.post_ok Demo.error_text
                  Demo.stringify Demo.roomy Demo.display
                  (Demo.fresh (lit "example.com")))).
  reflexivity.
Defined.

Lemma on_click_restores_sample :
  exists p,
    on_click (list Outcome) Demo.post_ok Demo.error_text Demo.stringify Demo.roomy
      Demo.display (Demo.fresh Demo.box_text)
    = (Normal tt,
       {| page := p; urls_value := Demo.box_text; loading_hidden := true;
          button_disabled := false;
          posted := [] ++ [read_urls Demo.box_text] |}) /\
    (forall k, k <> storageKey ->
               localStorage p !! k = (∅ : gmap jsstring jsstring) !! k).
Proof.
  apply (on_click_restores (list Outcome) Demo.post_ok Demo.error_text
           Demo.stringify Demo.roomy Demo.display (Demo.fresh Demo.box_text)).
  change (read_urls Demo.box_text <> []). rewrite read_urls_sample. discriminate.
Defined.


Lemma saved_results_reload_sample :
  localStorage
    (page (on_click (list Outcome) Demo.post_ok Demo.error_text Demo.stringify
             Demo.roomy Demo.display (Demo.fresh Demo.box_text)).2) !! storageKey
  = Some (Demo.stringify (Demo.timed_out (read_urls Demo.box_text))) /\
  (forall p,
     localStorage p
     = localStorage
         (page (on_click (list Outcome) Demo.post_ok Demo.error_text Demo.stringify
                  Demo.roomy Demo.display (Demo.fresh Demo.box_text)).2) ->
     Demo.stringify (Demo.timed_out (read_urls Demo.box_text)) <> [] ->
     Demo.parse (Demo.stringify (Demo.timed_out (read_urls Demo.box_text)))
     = Normal (Demo.timed_out (read_urls Demo.box_text)) ->
     loadAndDisplayStoredResults (list Outcome) Demo.parse Demo.display p
     = match Demo.display (Demo.timed_out (read_urls Demo.box_text)) (resultsArea p) with
       | (Normal _, html) =>
           (Normal tt, {| resultsArea := html; localStorage := localStorage p |})
       | (Throw _, _) =>
           (Normal tt, {| resultsArea := corrupted_message;
                          localStorage := delete storageKey (localStorage p) |})
       end).
Proof.
  apply (saved_results_reload (list Outcome) Demo.post_ok Demo.error_text
           Demo.stringify Demo.roomy Demo.parse Demo.display
           (Demo.fresh Demo.box_text)
           {| status := 200; statusText := lit "OK";
              json := Normal (Demo.timed_out (read_urls Demo.box_text)) |}
           (Demo.timed_out (read_urls Demo.box_text))).
  - change (read_urls Demo.box_text <> []). rewrite read_urls_sample. discriminate.
  - reflexivity.
  - reflexivity.
  - reflexivity.
  - reflexivity.
Defined.

Lemma on_click_storage_full_sample :
  localStorage
    (page (on_click (list Outcome) Demo.post_ok Demo.error_text Demo.stringify
             Demo.full Demo.display (Demo.fresh Demo.box_text)).2)
  = ∅ /\
  (forall html,
     Demo.display (Demo.timed_out (read_urls Demo.box_text)) storage_note
     = (Normal tt, html) ->
     resultsArea
       (page (on_click (list Outcome) Demo.post_ok Demo.error_text Demo.stringify
                Demo.full Demo.display (Demo.fresh Demo.box_text)).2) = html).
Proof.
  apply (on_click_storage_full (list Outcome) Demo.post_ok Demo.error_text
           Demo.stringify Demo.full Demo.display (Demo.fresh Demo.box_text)
           {| status := 200; statusText := lit "OK";
              json := Normal (Demo.timed_out (read_urls Demo.box_text)) |}
           (Demo.timed_out (read_urls Demo.box_text))).
  - change (read_urls Demo.box_text <> []). rewrite read_urls_sample. discriminate.
  - reflexivity.
  - reflexivity.
  - reflexivity.
  - reflexivity.
Defined.

Lemma posted_urls_accepted_sample :
  Demo.box_urls = read_urls (urls_value (Demo.fresh Demo.box_text)) /\
  Demo.box_urls <> [] /\
  code {| code := 200;
          payload := OutcomesJson
            [ Success (lit "http://example.com/") [generic_record (lit "Example Domain")];
              Failure (lit "https://slow.example/") (lit "Request timed out") ] |} = 200 /\
  exists rd,
    payload {| code := 200;
               payload := OutcomesJson
                 [ Success (lit "http://example.com/")
                     [generic_record (lit "Example Domain")];
                   Failure (lit "https://slow.example/") (lit "Request timed out") ] |}
    = OutcomesJson rd /\
    outcome_url <$> rd = Demo.box_urls.
Proof.
  apply (posted_urls_accepted (list Outcome) Demo.post_ok Demo.error_text
           Demo.stringify Demo.roomy Demo.display
           (Sample.net_first_only 200 (lit "OK") [])
           (Sample.load_as Sample.example_page) Sample.URL_href
           (Demo.fresh Demo.box_text) Demo.box_urls [1; 0] []
           _ Demo.box_urls).
  - reflexivity.
  - reflexivity.
Defined.

Lemma displayed_batch_sample :
  exists contents,
    displayResults
      [ Success (lit "http://example.com/") [generic_record (lit "Example Domain")];
        Failure (lit "https://slow.example/") (lit "Request timed out") ]
    = Items contents /\
    length contents = length Demo.box_urls /\
    (forall i url, Demo.box_urls !! i = Some url -> url <> [] ->
       exists rest, contents !! i = Some (lit "<h3>" ++ url ++ lit "</h3>" ++ rest)).
Proof.
  apply (displayed_batch (Sample.net_first_only 200 (lit "OK") [])
           (Sample.load_as Sample.example_page) Sample.URL_href
           [1; 0] Demo.box_urls [] _ Demo.box_urls).
  - discriminate.
  - reflexivity.
Defined.

(** The block of a failed result, with its error text sanitised. *)
Example failure_content_sample :
  result_content (Failure (lit "http://x.example/") (lit "<b>no</b>"))
  = lit "<h3>http://x.example/</h3><p>Status: <span class=" ++ dq
    ++ lit "status-failed" ++ dq ++ lit ">failed</span></p><p class=" ++ dq
    ++ lit "error-message" ++ dq ++ lit ">Error: &lt;b&gt;no&lt;/b&gt;</p>".
Proof. reflexivity. Qed.

(** Eleven records: ten are listed and one is counted. *)
Example eleven_records :
  records_markup (replicate 11 [(lit "k", lit "v")])
  = lit "<p>Found 11 record(s):</p><ul>"
    ++ flat_map record_item (replicate 10 [(lit "k", lit "v")])
    ++ lit "<li>... and 1 more</li></ul>".
Proof. reflexivity. Qed.

Lemma success_content_brackets_sample :
  count_char 60
    (result_content (Success (lit "http://x.example/")
                       [book_record (lit "<i>A</i>") (lit "1") (lit "http://x.example/a")]))
  = count_char 60
      (result_content (Success (lit "http://x.example/")
                         [book_record (lit "B") (lit "2") (lit "http://x.example/b")])).
Proof.
  apply (success_content_brackets 60 (lit "http://x.example/")
           [book_record (lit "<i>A</i>") (lit "1") (lit "http://x.example/a")]
           [book_record (lit "B") (lit "2") (lit "http://x.example/b")]).
  - by left.
  - repeat constructor.
Defined.
